(** * Minesweeper knowledge engine: a shallow embedding of [minesweeper.py]

    The Python classes [Sentence] and [MinesweeperAI] are embedded as
    records over stdpp finite sets, their methods as functions on these
    records: a method that mutates [self] returns the new record; the
    two move queries are programs that read [self] statement by
    statement and return their result paired with the engine they leave
    behind.

    - A Python [set] of cells is a [gset cell]; a [for] over a set goes
      through [elements], whose order stands for Python's arbitrary one.
    - [count] is a Python integer, hence [Z]; nothing keeps it within
      [0 .. len(cells)].
    - [knowledge] is a Python list, hence a [list]; the sentences in it
      are only reached through the list, so updating a sentence in place
      is updating the list element.
    - The [while changes] loop of [update_knowledge_base] is a function
      with fuel, shown to return with the fuel it is given.
    - [random.choice] takes the generator's draw as an argument.

    - The class [Minesweeper] keeps its field as a list of rows; its
      constructor takes the draws of [random.randrange] as an argument,
      one pair per iteration of its placement loop. Its [print] method
      is not embedded. *)

From Stdlib Require Import ZArith List Lia.
From stdpp Require Import base decidable numbers option list sets fin_sets gmap.

Open Scope Z_scope.

(** A board position [(row, col)]; Python compares tuples by value. *)
Definition cell : Type := Z * Z.

(** ** class Sentence *)

Module Sentence.

Record t : Type := Sentence { cells : gset cell; count : Z }.

(** [Sentence.__eq__]: equal cell sets and equal counts. *)
#[global] Instance eq_dec : EqDecision t.
Proof. solve_decision. Defined.

(** [len(self.cells)] as a Python integer. *)
Definition len (s : t) : Z := Z.of_nat (size (cells s)).

Definition known_mines (s : t) : gset cell :=
  if decide (count s = len s) then cells s else ∅.

Definition known_safes (s : t) : gset cell :=
  if decide (count s = 0) then cells s else ∅.

Definition mark_mine (s : t) (c : cell) : t :=
  if decide (c ∈ cells s)
  then {| cells := cells s ∖ {[c]}; count := count s - 1 |}
  else s.

Definition mark_safe (s : t) (c : cell) : t :=
  if decide (c ∈ cells s)
  then {| cells := cells s ∖ {[c]}; count := count s |}
  else s.

End Sentence.

(** ** Python outcomes and [random.choice] *)

(** A call either returns a value or raises; the only exception in reach
    of the modelled code is the [IndexError] of [random.choice]. *)
Inductive outcome (A : Type) : Type :=
  | Returned (a : A)
  | Raised_IndexError.
Arguments Returned {A} a.
Arguments Raised_IndexError {A}.

(** [random.choice(seq)]: raises on the empty sequence and otherwise
    returns [seq[i]] for an index [i] below [len(seq)] drawn from the
    generator; [r] is the entropy the generator supplies. *)
Definition random_choice {A : Type} (seq : list A) (r : nat) : outcome A :=
  match seq with
  | [] => Raised_IndexError
  | x :: _ => Returned (nth (r mod length seq)%nat seq x)
  end.

(** ** class MinesweeperAI *)

Module MinesweeperAI.

Record t : Type := AI {
  height : Z;
  width : Z;
  moves_made : gset cell;
  mines : gset cell;
  safes : gset cell;
  knowledge : list Sentence.t
}.

(** [__init__] *)
Definition init (height width : Z) : t :=
  {| height := height; width := width;
     moves_made := ∅; mines := ∅; safes := ∅; knowledge := [] |}.

Definition set_knowledge (ai : t) (kb : list Sentence.t) : t :=
  {| height := height ai; width := width ai;
     moves_made := moves_made ai; mines := mines ai; safes := safes ai;
     knowledge := kb |}.

Definition mark_mine (ai : t) (c : cell) : t :=
  {| height := height ai; width := width ai;
     moves_made := moves_made ai;
     mines := mines ai ∪ {[c]};
     safes := safes ai;
     knowledge := (λ sentence, Sentence.mark_mine sentence c) <$> knowledge ai |}.

Definition mark_safe (ai : t) (c : cell) : t :=
  {| height := height ai; width := width ai;
     moves_made := moves_made ai;
     mines := mines ai;
     safes := safes ai ∪ {[c]};
     knowledge := (λ sentence, Sentence.mark_safe sentence c) <$> knowledge ai |}.

(** The eight candidates, in the order of the source tuple. *)
Definition candidates (c : cell) : list cell :=
  let '(row, col) := c in
  [ (row - 1, col); (row + 1, col); (row, col - 1); (row, col + 1);
    (row - 1, col - 1); (row - 1, col + 1);
    (row + 1, col - 1); (row + 1, col + 1) ].

Definition in_bounds (ai : t) (c : cell) : Prop :=
  0 ≤ c.1 < height ai ∧ 0 ≤ c.2 < width ai.

#[global] Instance in_bounds_dec ai c : Decision (in_bounds ai c).
Proof. unfold in_bounds. apply _. Defined.

Definition find_cell_neighbors (ai : t) (c : cell) : list cell :=
  filter (λ candidate, (candidate ∉ moves_made ai) ∧ in_bounds ai candidate)
         (candidates c).

(** One iteration of [for sentence in self.knowledge] in
    [update_knowledge_base]: the sentence at position [i] is read in
    its current state, every cell of the copies [safes] and [mines]
    is marked on the whole engine. *)
Definition visit (acc : t * bool) (i : nat) : t * bool :=
  let '(ai, changes) := acc in
  match knowledge ai !! i with
  | None => acc
  | Some sentence =>
      let safes := Sentence.known_safes sentence in
      let mines := Sentence.known_mines sentence in
      let '(ai, changes) :=
        if decide (safes ≠ ∅)
        then (foldl mark_safe ai (elements safes), true)
        else (ai, changes) in
      if decide (mines ≠ ∅)
      then (foldl mark_mine ai (elements mines), true)
      else (ai, changes)
  end.

(** One pass of the [while changes] body: the new engine and the
    final value of [changes]. *)
Definition pass (ai : t) : t * bool :=
  foldl visit (ai, false) (seq 0 (length (knowledge ai))).

(** The [while changes] loop, bounded by [fuel] passes. *)
Fixpoint saturate (fuel : nat) (ai : t) : option t :=
  match fuel with
  | O => None
  | S fuel =>
      let '(ai, changes) := pass ai in
      if changes then saturate fuel ai else Some ai
  end.

(** Number of (sentence, cell) memberships in the knowledge base. *)
Definition memberships (ai : t) : nat :=
  sum_list_with (λ s, size (Sentence.cells s)) (knowledge ai).

(** [[s for s in self.knowledge if s.cells]] *)
Definition prune (ai : t) : t :=
  set_knowledge ai (filter (λ s, Sentence.cells s ≠ ∅) (knowledge ai)).

Definition update_knowledge_base (ai : t) : t :=
  prune (default ai (saturate (S (memberships ai)) ai)).

(** Body of the inner loop of [infer_new_sentences]. *)
Definition infer_pair (kb : list Sentence.t) (s1 : Sentence.t)
    (inferred : list Sentence.t) (s2 : Sentence.t) : list Sentence.t :=
  if decide (s1 ≠ s2 ∧ Sentence.cells s1 ⊆ Sentence.cells s2) then
    let new_cells := Sentence.cells s2 ∖ Sentence.cells s1 in
    let new_count := Sentence.count s2 - Sentence.count s1 in
    let new_sentence := Sentence.Sentence new_cells new_count in
    if decide ((new_sentence ∉ kb) ∧ (new_sentence ∉ inferred))
    then inferred ++ [new_sentence]
    else inferred
  else inferred.

Definition inferred_sentences (kb : list Sentence.t) : list Sentence.t :=
  foldl (λ inferred s1, foldl (infer_pair kb s1) inferred kb) [] kb.

Definition infer_new_sentences (ai : t) : t :=
  set_knowledge ai (knowledge ai ++ inferred_sentences (knowledge ai)).

Definition add_knowledge (ai : t) (c : cell) (count : Z) : t :=
  let ai :=
    {| height := height ai; width := width ai;
       moves_made := moves_made ai ∪ {[c]};
       mines := mines ai; safes := safes ai;
       knowledge := knowledge ai |} in
  let ai := mark_safe ai c in
  let neighbors := find_cell_neighbors ai c in
  let new_sentence := Sentence.Sentence (list_to_set neighbors) count in
  let ai := set_knowledge ai (knowledge ai ++ [new_sentence]) in
  let ai := update_knowledge_base ai in
  infer_new_sentences ai.

(** *** Method bodies that read and write [self]

    The two queries are embedded statement by statement as programs
    over the engine they are called on: every [self.field] is a [read]
    of the engine at that point of the run, an in-place update of
    [self] is an [assign], and an exception ends the run. *)

(** A method body: from the engine it runs on to its outcome and the
    engine it leaves behind. *)
Definition method (A : Type) : Type := t → outcome A * t.

(** [return a] *)
Definition ret {A : Type} (a : A) : method A :=
  λ self, (Returned a, self).

(** [m] and then [k] on its value, on the engine [m] leaves; an
    exception of [m] ends the run. *)
Definition bind {A B : Type} (m : method A) (k : A → method B) : method B :=
  λ self,
    match m self with
    | (Returned a, self) => k a self
    | (Raised_IndexError, self) => (Raised_IndexError, self)
    end.

(** [self.field] *)
Definition read {A : Type} (field : t → A) : method A :=
  λ self, (Returned (field self), self).

(** An update of [self] in place. *)
Definition assign (f : t → t) : method unit :=
  λ self, (Returned tt, f self).

(** A call that does not see [self]. *)
Definition lift {A : Type} (o : outcome A) : method A :=
  λ self, (o, self).

Notation "'let*' x ':=' m 'in' k" := (bind m (λ x, k))
  (at level 200, x name, m at level 100, k at level 200,
   right associativity, only parsing).

(** [for x in xs: acc = body(acc, x)], each iteration on the engine the
    one before has left. *)
Fixpoint for_each {A B : Type} (xs : list A) (acc : B)
    (body : B → A → method B) : method B :=
  match xs with
  | [] => ret acc
  | x :: xs => let* acc := body acc x in for_each xs acc body
  end.

(** [random.choice(possible_moves) if possible_moves else None]; in
    [make_random_move] the same through an early [return None]. *)
Definition choice_or_none (possible_moves : list cell) (r : nat)
    : method (option cell) :=
  match possible_moves with
  | [] => ret None
  | _ :: _ =>
      let* c := lift (random_choice possible_moves r) in
      ret (Some c)
  end.

Definition make_safe_move (ai : t) (r : nat) : outcome (option cell) * t :=
  (let* safe_cells := read safes in
   let* possible_moves :=
     for_each (elements safe_cells) []
       (λ possible_moves c,
          let* played := read moves_made in
          if decide (c ∉ played)
          then ret (possible_moves ++ [c])
          else ret possible_moves) in
   choice_or_none possible_moves r) ai.

Definition make_random_move (ai : t) (r : nat) : outcome (option cell) * t :=
  (let* rows := read height in
   let* possible_moves :=
     for_each (seqZ 0 rows) []
       (λ possible_moves row,
          let* columns := read width in
          for_each (seqZ 0 columns) possible_moves
            (λ possible_moves col,
               let* played := read moves_made in
               if decide ((row, col) ∉ played) then
                 let* known_mines := read mines in
                 if decide ((row, col) ∉ known_mines)
                 then ret (possible_moves ++ [(row, col)])
                 else ret possible_moves
               else ret possible_moves)) in
   choice_or_none possible_moves r) ai.

End MinesweeperAI.

(** ** Python list subscripts *)

(** [l[i]]: a negative index counts from the end of the list; an index
    out of range raises [IndexError]. *)
Definition getitem {A : Type} (l : list A) (i : Z) : outcome A :=
  let i := if decide (i < 0) then i + Z.of_nat (length l) else i in
  if decide (i < 0) then Raised_IndexError
  else
    match l !! Z.to_nat i with
    | Some x => Returned x
    | None => Raised_IndexError
    end.

(** [l[i] = x], with the same index rule. *)
Definition setitem {A : Type} (l : list A) (i : Z) (x : A) : outcome (list A) :=
  let i := if decide (i < 0) then i + Z.of_nat (length l) else i in
  if decide (0 ≤ i < Z.of_nat (length l))
  then Returned (<[Z.to_nat i := x]> l)
  else Raised_IndexError.

(** [random.randrange(n)]: raises [ValueError] (here [None]) unless
    [0 < n], and otherwise returns a member of [range(n)] drawn from the
    generator; [r] is the entropy the generator supplies. *)
Definition randrange (n : Z) (r : nat) : option Z :=
  if decide (0 < n) then Some (Z.of_nat r `mod` n) else None.

(** ** class Minesweeper *)

Module Minesweeper.

Record t : Type := Game {
  height : Z;
  width : Z;
  mines : gset cell;
  board : list (list bool);
  mines_found : gset cell
}.

(** How a call of the constructor ends: with the new game, with an
    exception, or still inside [while len(self.mines) != mines] when the
    generator's draws are used up. *)
Inductive construction (A : Type) : Type :=
  | Constructed (a : A)
  | ValueError
  | IndexError
  | Running.
Arguments Constructed {A} a.
Arguments ValueError {A}.
Arguments IndexError {A}.
Arguments Running {A}.

(** [board[i][j]] *)
Definition board_get (board : list (list bool)) (i j : Z) : outcome bool :=
  match getitem board i with
  | Returned row => getitem row j
  | _ => Raised_IndexError
  end.

(** [board[i][j] = v]: the row object [board[i]] is updated in place. *)
Definition board_set (board : list (list bool)) (i j : Z) (v : bool)
    : outcome (list (list bool)) :=
  match getitem board i with
  | Returned row =>
      match setitem row j v with
      | Returned row => setitem board i row
      | _ => Raised_IndexError
      end
  | _ => Raised_IndexError
  end.

(** The two nested [for] loops of [__init__] that fill the field. *)
Definition empty_board (height width : Z) : list (list bool) :=
  foldl (λ board _,
           let row := foldl (λ row _, row ++ [false]) [] (seqZ 0 width) in
           board ++ [row])
        [] (seqZ 0 height).

(** The loop [while len(self.mines) != mines] of [__init__], on the pair
    [(self.mines, self.board)]; one pair of draws per iteration. *)
Fixpoint add_mines (height width mines : Z) (draws : list (nat * nat))
    (st : gset cell * list (list bool))
    : construction (gset cell * list (list bool)) :=
  if decide (Z.of_nat (size st.1) ≠ mines) then
    match draws with
    | [] => Running
    | (ri, rj) :: draws =>
        match randrange height ri with
        | None => ValueError
        | Some i =>
            match randrange width rj with
            | None => ValueError
            | Some j =>
                match board_get st.2 i j with
                | Returned true => add_mines height width mines draws st
                | Returned false =>
                    match board_set st.2 i j true with
                    | Returned board =>
                        add_mines height width mines draws
                                  (st.1 ∪ {[(i, j)]}, board)
                    | _ => IndexError
                    end
                | _ => IndexError
                end
            end
        end
    end
  else Constructed st.

(** [__init__] *)
Definition init (height width mines : Z) (draws : list (nat * nat))
    : construction t :=
  match add_mines height width mines draws (∅, empty_board height width) with
  | Constructed st =>
      Constructed {| height := height; width := width;
                     mines := st.1; board := st.2; mines_found := ∅ |}
  | ValueError => ValueError
  | IndexError => IndexError
  | Running => Running
  end.

Definition is_mine (g : t) (c : cell) : outcome bool :=
  let '(i, j) := c in board_get (board g) i j.

(** The body of the two nested loops of [nearby_mines], at [(i, j)]. *)
Definition look (g : t) (c : cell) (acc : outcome Z) (x : cell) : outcome Z :=
  match acc with
  | Returned count =>
      if decide (x = c) then Returned count
      else if decide (0 ≤ x.1 < height g ∧ 0 ≤ x.2 < width g) then
        match board_get (board g) x.1 x.2 with
        | Returned true => Returned (count + 1)
        | Returned false => Returned count
        | _ => Raised_IndexError
        end
      else Returned count
  | _ => Raised_IndexError
  end.

Definition nearby_mines (g : t) (c : cell) : outcome Z :=
  foldl (λ acc i, foldl (λ acc j, look g c acc (i, j)) acc (seqZ (c.2 - 1) 3))
        (Returned 0) (seqZ (c.1 - 1) 3).

Definition won (g : t) : bool := bool_decide (mines_found g = mines g).

End Minesweeper.

(** * Vocabulary of the statements *)

Section vocabulary.
Import MinesweeperAI.
Implicit Types (ai : MinesweeperAI.t) (c : cell) (s : Sentence.t).
Implicit Types (M : gset cell) (kb inferred : list Sentence.t).

(** ** Saturation *)

(** The measure of [memberships], on a bare knowledge list. *)
Definition weight kb : nat :=
  sum_list_with (λ s, size (Sentence.cells s)) kb.

(** ** Subset resolution *)

(** The sentence the loop body builds from the pair [(s1, s2)]. *)
Definition derived (s1 s2 : Sentence.t) : Sentence.t :=
  Sentence.Sentence (Sentence.cells s2 ∖ Sentence.cells s1)
                    (Sentence.count s2 - Sentence.count s1).

(** The guard of the loop body: [s1 != s2 and s1.cells.issubset(s2.cells)]. *)
Definition resolvable (s1 s2 : Sentence.t) : Prop :=
  s1 ≠ s2 ∧ Sentence.cells s1 ⊆ Sentence.cells s2.

(** What may be staged: a derived sentence not yet in [kb]. *)
Definition candidate kb s : Prop :=
  (s ∉ kb)
  ∧ ∃ s1 s2, s1 ∈ kb ∧ s2 ∈ kb ∧ resolvable s1 s2 ∧ s = derived s1 s2.

(** The loop invariant of [inferred]. *)
Definition staged kb inferred : Prop :=
  NoDup inferred ∧ ∀ s, s ∈ inferred → candidate kb s.

(** ** Move queries *)

(** The method body [m] leaves every engine as it found it. *)
Definition read_only {A : Type} (m : method A) : Prop :=
  ∀ ai, (m ai).2 = ai.

(** The list [possible_moves] of [make_safe_move]. *)
Definition safe_candidates ai : list cell :=
  filter (λ c, c ∉ moves_made ai) (elements (safes ai)).

(** The list [possible_moves] of [make_random_move]. *)
Definition random_candidates ai : list cell :=
  row ← seqZ 0 (height ai);
  col ← seqZ 0 (width ai);
  if decide (((row, col) ∉ moves_made ai) ∧ ((row, col) ∉ mines ai))
  then [(row, col)] else [].

(** ** Runs of the engine *)

(** One [add_knowledge] call per observation [(cell, count)]. *)
Definition observe ai (o : cell * Z) : MinesweeperAI.t :=
  add_knowledge ai o.1 o.2.

Definition run ai (obs : list (cell * Z)) : MinesweeperAI.t :=
  foldl observe ai obs.

(** [ai'] is a later state of [ai]: same board, nothing retracted. *)
Definition grows ai ai' : Prop :=
  height ai' = height ai ∧ width ai' = width ai
  ∧ moves_made ai ⊆ moves_made ai'
  ∧ safes ai ⊆ safes ai'
  ∧ mines ai ⊆ mines ai'.

(** The sentence [s] is true of the mine layout [M]: exactly [count]
    of its cells are mines. *)
Definition holds M s : Prop :=
  Sentence.count s = Z.of_nat (size (Sentence.cells s ∩ M)).

(** Everything the engine believes is true of the mine layout [M]. *)
Definition sound M ai : Prop :=
  moves_made ai ## M ∧ safes ai ## M ∧ mines ai ⊆ M
  ∧ Forall (holds M) (knowledge ai).

(** The in-bounds neighbours of a cell on the engine's board. *)
Definition board_neighbors ai c : gset cell :=
  list_to_set (filter (in_bounds ai) (candidates c)).

(** The observation [o] is what a board with mine layout [M] reports:
    the revealed cell is not a mine and the count is the number of
    mines among its in-bounds neighbours. *)
Definition truthful M ai (o : cell * Z) : Prop :=
  (o.1 ∉ M) ∧ o.2 = Z.of_nat (size (board_neighbors ai o.1 ∩ M)).

(** ** Worked examples *)

Definition A0 : cell := (0, 0).
Definition B0 : cell := (0, 1).
Definition C0 : cell := (0, 2).

(** One sentence that resolves in the first pass: [{(0,1)}] with count 1. *)
Definition ai_one_mine : MinesweeperAI.t :=
  MinesweeperAI.set_knowledge (MinesweeperAI.init 1 2)
    [Sentence.Sentence {[ (0, 1) ]} 1].

(** A knowledge base holding [{A0, B0, C0}] count 1 and [{A0, B0}]
    count 1. *)
Definition ai_subset_pair : MinesweeperAI.t :=
  MinesweeperAI.set_knowledge (MinesweeperAI.init 1 3)
    [Sentence.Sentence {[A0; B0; C0]} 1; Sentence.Sentence {[A0; B0]} 1].

(** An engine with one safe cell still to play, on a 1×2 board. *)
Definition ai_one_safe : MinesweeperAI.t :=
  MinesweeperAI.add_knowledge (MinesweeperAI.init 1 2) (0, 0) 0.

End vocabulary.

(** * Vocabulary of the further properties *)

Section further_vocabulary.
Import MinesweeperAI.
Implicit Types (ai : MinesweeperAI.t) (c : cell) (s : Sentence.t).

(** [x] is one of the eight cells around [c]. *)
Definition adjacent (c x : cell) : Prop :=
  x ≠ c ∧ -1 ≤ x.1 - c.1 ≤ 1 ∧ -1 ≤ x.2 - c.2 ≤ 1.


(** The sentence speaks of board cells not yet played only. *)
Definition open_cells ai s : Prop :=
  ∀ c, c ∈ Sentence.cells s → in_bounds ai c ∧ c ∉ moves_made ai.

(** What every engine reached from a fresh one satisfies. *)
Definition kept ai : Prop :=
  moves_made ai ⊆ safes ai
  ∧ (∀ c, c ∈ mines ai → in_bounds ai c)
  ∧ (∀ c, c ∈ safes ai → c ∈ moves_made ai ∨ in_bounds ai c)
  ∧ Forall (open_cells ai) (knowledge ai).

(** One sentence before and after marking: cells are only dropped, and
    a dropped cell is in [safes] or [mines] of the later engine [ai']. *)
Definition drained ai' (s s' : Sentence.t) : Prop :=
  Sentence.cells s' ⊆ Sentence.cells s
  ∧ Sentence.cells s ⊆ Sentence.cells s' ∪ safes ai' ∪ mines ai'.

(** The knowledge of [ai'] is that of [ai], sentence by sentence, with
    cells moved to [safes] and [mines]. *)
Definition shrinks ai ai' : Prop :=
  Forall2 (drained ai') (knowledge ai) (knowledge ai').

End further_vocabulary.

(** * Vocabulary of the board's properties *)

Section board_vocabulary.
Implicit Types (c x : cell) (board : list (list bool)) (g : Minesweeper.t).

#[global] Instance adjacent_dec c x : Decision (adjacent c x).
Proof. unfold adjacent. apply _. Defined.

(** The field has [h] rows of [w] entries each. *)
Definition rectangular (h w : Z) board : Prop :=
  length board = Z.to_nat h ∧ Forall (λ row, length row = Z.to_nat w) board.

(** The entry of the field at a cell with non-negative coordinates. *)
Definition entry board c : option bool :=
  board !! Z.to_nat c.1 ≫= (.!! Z.to_nat c.2).

(** The set [ms] holds exactly the cells whose entry is [True]. *)
Definition marks board (ms : gset cell) : Prop :=
  ∀ c, c ∈ ms ↔ 0 ≤ c.1 ∧ 0 ≤ c.2 ∧ entry board c = Some true.

(** What the constructor establishes and no method changes. *)
Definition well_formed g : Prop :=
  rectangular (Minesweeper.height g) (Minesweeper.width g) (Minesweeper.board g)
  ∧ marks (Minesweeper.board g) (Minesweeper.mines g).

(** The cells the loops of [nearby_mines] go through, in their order. *)
Definition square c : list cell :=
  let '(row, col) := c in
  [ (row - 1, col - 1); (row - 1, col); (row - 1, col + 1);
    (row, col - 1); (row, col); (row, col + 1);
    (row + 1, col - 1); (row + 1, col); (row + 1, col + 1) ].

(** The cells [nearby_mines] counts. *)
Definition counted g c x : Prop :=
  x ≠ c
  ∧ (0 ≤ x.1 < Minesweeper.height g ∧ 0 ≤ x.2 < Minesweeper.width g)
  ∧ x ∈ Minesweeper.mines g.

#[global] Instance counted_dec g c x : Decision (counted g c x).
Proof. unfold counted. apply _. Defined.

(** The cell a pair of draws stands for on a large enough field. *)
Definition drawn (d : nat * nat) : cell := (Z.of_nat d.1, Z.of_nat d.2).

(** The game reports [o] when the cell [o.1] is revealed: it is no mine
    and [o.2] is its count of nearby mines. *)
Definition reported g (o : cell * Z) : Prop :=
  Minesweeper.is_mine g o.1 = Returned false
  ∧ Minesweeper.nearby_mines g o.1 = Returned o.2.

(** A game on a 3×3 field with mines at [(0,0)] and [(1,2)]. *)
Definition game_two_mines : Minesweeper.t :=
  {| Minesweeper.height := 3; Minesweeper.width := 3;
     Minesweeper.mines := {[ (0, 0); (1, 2) ]};
     Minesweeper.board := [ [true; false; false];
                            [false; false; true];
                            [false; false; false] ];
     Minesweeper.mines_found := ∅ |}.

End board_vocabulary.

(** Closes a decidable goal about concrete engines by evaluation. *)
Ltac by_evaluation := apply (bool_decide_unpack _); vm_compute; exact I.

(** * Sentences *)

Section sentence_facts.
Import Sentence.
Implicit Types (s : Sentence.t) (c : cell).

Lemma mark_mine_in s c :
  c ∈ cells s → mark_mine s c = Sentence (cells s ∖ {[c]}) (count s - 1).
Proof. intros Hc. unfold mark_mine. by rewrite decide_True. Qed.

Lemma mark_mine_notin s c : c ∉ cells s → mark_mine s c = s.
Proof. intros Hc. unfold mark_mine. by rewrite decide_False. Qed.

Lemma mark_safe_in s c :
  c ∈ cells s → mark_safe s c = Sentence (cells s ∖ {[c]}) (count s).
Proof. intros Hc. unfold mark_safe. by rewrite decide_True. Qed.

Lemma mark_safe_notin s c : c ∉ cells s → mark_safe s c = s.
Proof. intros Hc. unfold mark_safe. by rewrite decide_False. Qed.

Lemma cells_mark_mine s c : cells (mark_mine s c) = cells s ∖ {[c]}.
Proof.
  unfold mark_mine. case_decide; simpl; [done | set_solver].
Qed.

Lemma cells_mark_safe s c : cells (mark_safe s c) = cells s ∖ {[c]}.
Proof.
  unfold mark_safe. case_decide; simpl; [done | set_solver].
Qed.

Lemma count_mark_safe s c : count (mark_safe s c) = count s.
Proof. unfold mark_safe. by case_decide. Qed.

Lemma size_pair (a b : cell) : a ≠ b → size ({[a; b]} : gset cell) = 2%nat.
Proof.
  intros Hab. rewrite size_union; [|set_solver].
  by rewrite !size_singleton.
Qed.

Lemma size_triple (a b c : cell) :
  a ≠ b → a ≠ c → b ≠ c → size ({[a; b; c]} : gset cell) = 3%nat.
Proof.
  intros Hab Hac Hbc. rewrite size_union; [|set_solver].
  by rewrite size_pair, size_singleton.
Qed.

Lemma pair_remove_left (a b : cell) :
  a ≠ b → ({[a; b]} : gset cell) ∖ {[a]} = {[b]}.
Proof. set_solver. Qed.

End sentence_facts.

(** C2. [known_mines] returns the whole cell set when [count] equals the
    number of cells and the empty set otherwise; [known_safes] returns
    the whole cell set when [count] is 0 and the empty set otherwise.
    For three distinct cells [a], [b], [c]: with count 3 the known mines
    are [{a, b, c}] and the known safes are empty; with count 0 the known
    safes are [{a, b, c}]. *)
Theorem known_mines_known_safes_spec (s : Sentence.t) :
  (Sentence.count s = Z.of_nat (size (Sentence.cells s)) →
     Sentence.known_mines s = Sentence.cells s)
  ∧ (Sentence.count s ≠ Z.of_nat (size (Sentence.cells s)) →
     Sentence.known_mines s = ∅)
  ∧ (Sentence.count s = 0 → Sentence.known_safes s = Sentence.cells s)
  ∧ (Sentence.count s ≠ 0 → Sentence.known_safes s = ∅)
  ∧ (∀ a b c : cell, a ≠ b → a ≠ c → b ≠ c →
       Sentence.known_mines (Sentence.Sentence {[a; b; c]} 3) = {[a; b; c]}
       ∧ Sentence.known_safes (Sentence.Sentence {[a; b; c]} 3) = ∅
       ∧ Sentence.known_safes (Sentence.Sentence {[a; b; c]} 0) = {[a; b; c]}).
Proof.
  unfold Sentence.known_mines, Sentence.known_safes, Sentence.len.
  repeat split; try (intros; case_decide; done).
  intros. cbn [Sentence.cells Sentence.count].
  rewrite size_triple by done. by rewrite decide_True.
Qed.

Lemma known_mines_known_safes_witness :
  Sentence.known_mines (Sentence.Sentence {[A0; B0; C0]} 3) = {[A0; B0; C0]}
  ∧ Sentence.known_mines (Sentence.Sentence {[A0; B0; C0]} 1) = ∅
  ∧ Sentence.known_safes (Sentence.Sentence {[A0; B0; C0]} 0) = {[A0; B0; C0]}
  ∧ Sentence.known_safes (Sentence.Sentence {[A0; B0; C0]} 3) = ∅.
Proof.
  split; [|split; [|split]].
  - destruct (known_mines_known_safes_spec
                (Sentence.Sentence {[A0; B0; C0]} 3)) as (H & _).
    apply H. vm_compute. reflexivity.
  - destruct (known_mines_known_safes_spec
                (Sentence.Sentence {[A0; B0; C0]} 1)) as (_ & H & _).
    apply H. vm_compute. discriminate.
  - destruct (known_mines_known_safes_spec
                (Sentence.Sentence {[A0; B0; C0]} 0)) as (_ & _ & H & _).
    apply H. reflexivity.
  - destruct (known_mines_known_safes_spec
                (Sentence.Sentence {[A0; B0; C0]} 3)) as (_ & _ & _ & H & _).
    apply H. vm_compute. discriminate.
Defined.

(** C4. [Sentence.mark_mine]: a cell of the sentence is removed from the
    cell set (all other cells stay) and [count] drops by exactly 1; a cell
    outside the sentence leaves the sentence as it is. For distinct [a],
    [b]: marking [a] in [{a, b}], count 1, gives [{b}], count 0, whose
    known safes are [{b}]. *)
Theorem sentence_mark_mine_spec (s : Sentence.t) (c : cell) :
  (c ∈ Sentence.cells s →
     Sentence.cells (Sentence.mark_mine s c) = Sentence.cells s ∖ {[c]}
     ∧ Sentence.count (Sentence.mark_mine s c) = Sentence.count s - 1)
  ∧ (c ∉ Sentence.cells s →
     Sentence.cells (Sentence.mark_mine s c) = Sentence.cells s
     ∧ Sentence.count (Sentence.mark_mine s c) = Sentence.count s)
  ∧ (∀ a b : cell, a ≠ b →
       Sentence.mark_mine (Sentence.Sentence {[a; b]} 1) a
         = Sentence.Sentence {[b]} 0
       ∧ Sentence.known_safes
           (Sentence.mark_mine (Sentence.Sentence {[a; b]} 1) a) = {[b]}).
Proof.
  split; [|split].
  - intros Hc. by rewrite mark_mine_in.
  - intros Hc. by rewrite mark_mine_notin.
  - intros a b Hab. rewrite mark_mine_in by set_solver.
    cbn [Sentence.cells Sentence.count].
    by rewrite pair_remove_left.
Qed.

Lemma sentence_mark_mine_witness :
  Sentence.cells (Sentence.mark_mine (Sentence.Sentence {[A0; B0]} 1) A0)
    = {[A0; B0]} ∖ {[A0]}
  ∧ Sentence.count (Sentence.mark_mine (Sentence.Sentence {[A0; B0]} 1) A0)
    = 1 - 1
  ∧ Sentence.count (Sentence.mark_mine (Sentence.Sentence {[A0; B0]} 1) C0) = 1
  ∧ Sentence.known_safes
      (Sentence.mark_mine (Sentence.Sentence {[A0; B0]} 1) A0) = {[B0]}.
Proof.
  split; [|split; [|split]].
  - destruct (sentence_mark_mine_spec (Sentence.Sentence {[A0; B0]} 1) A0)
      as (H & _).
    apply H. by_evaluation.
  - destruct (sentence_mark_mine_spec (Sentence.Sentence {[A0; B0]} 1) A0)
      as (H & _).
    apply H. by_evaluation.
  - destruct (sentence_mark_mine_spec (Sentence.Sentence {[A0; B0]} 1) C0)
      as (_ & H & _).
    apply H. by_evaluation.
  - destruct (sentence_mark_mine_spec (Sentence.Sentence ∅ 0) A0)
      as (_ & _ & H).
    apply (H A0 B0). discriminate.
Defined.

(** C5. [Sentence.mark_safe]: a cell of the sentence is removed from the
    cell set and [count] stays; a cell outside the sentence leaves the
    sentence as it is. For distinct [a], [b]: marking [a] safe in
    [{a, b}], count 1, gives [{b}], count 1, whose known mines are
    [{b}]. *)
Theorem sentence_mark_safe_spec (s : Sentence.t) (c : cell) :
  (c ∈ Sentence.cells s →
     Sentence.cells (Sentence.mark_safe s c) = Sentence.cells s ∖ {[c]}
     ∧ Sentence.count (Sentence.mark_safe s c) = Sentence.count s)
  ∧ (c ∉ Sentence.cells s →
     Sentence.cells (Sentence.mark_safe s c) = Sentence.cells s
     ∧ Sentence.count (Sentence.mark_safe s c) = Sentence.count s)
  ∧ (∀ a b : cell, a ≠ b →
       Sentence.mark_safe (Sentence.Sentence {[a; b]} 1) a
         = Sentence.Sentence {[b]} 1
       ∧ Sentence.known_mines
           (Sentence.mark_safe (Sentence.Sentence {[a; b]} 1) a) = {[b]}).
Proof.
  split; [|split].
  - intros Hc. by rewrite mark_safe_in.
  - intros Hc. by rewrite mark_safe_notin.
  - intros a b Hab. rewrite mark_safe_in by set_solver.
    cbn [Sentence.cells Sentence.count].
    rewrite pair_remove_left by done. split; [done|].
    unfold Sentence.known_mines, Sentence.len.
    cbn [Sentence.cells Sentence.count].
    rewrite size_singleton. by rewrite decide_True.
Qed.

Lemma sentence_mark_safe_witness :
  Sentence.cells (Sentence.mark_safe (Sentence.Sentence {[A0; B0]} 1) A0)
    = {[A0; B0]} ∖ {[A0]}
  ∧ Sentence.count (Sentence.mark_safe (Sentence.Sentence {[A0; B0]} 1) A0) = 1
  ∧ Sentence.cells (Sentence.mark_safe (Sentence.Sentence {[A0; B0]} 1) C0)
    = {[A0; B0]}
  ∧ Sentence.known_mines
      (Sentence.mark_safe (Sentence.Sentence {[A0; B0]} 1) A0) = {[B0]}.
Proof.
  split; [|split; [|split]].
  - destruct (sentence_mark_safe_spec (Sentence.Sentence {[A0; B0]} 1) A0)
      as (H & _).
    apply H. by_evaluation.
  - destruct (sentence_mark_safe_spec (Sentence.Sentence {[A0; B0]} 1) A0)
      as (H & _).
    apply H. by_evaluation.
  - destruct (sentence_mark_safe_spec (Sentence.Sentence {[A0; B0]} 1) C0)
      as (_ & H & _).
    apply H. by_evaluation.
  - destruct (sentence_mark_safe_spec (Sentence.Sentence ∅ 0) A0)
      as (_ & _ & H).
    apply (H A0 B0). discriminate.
Defined.

(** * Engine: marking *)

Section marking.
Import MinesweeperAI.
Implicit Types (ai : MinesweeperAI.t) (c : cell) (s : Sentence.t).

Lemma sentence_mark_mine_twice s c :
  Sentence.mark_mine (Sentence.mark_mine s c) c = Sentence.mark_mine s c.
Proof.
  apply mark_mine_notin. rewrite cells_mark_mine. set_solver.
Qed.

Lemma sentence_mark_safe_twice s c :
  Sentence.mark_safe (Sentence.mark_safe s c) c = Sentence.mark_safe s c.
Proof.
  apply mark_safe_notin. rewrite cells_mark_safe. set_solver.
Qed.

End marking.

(** C6. Calling the engine's [mark_mine] twice on the same cell leaves
    the engine (its [mines] set, and the cell set and count of every
    sentence of [knowledge]) exactly as one call leaves it. *)
Theorem mark_mine_idempotent (ai : MinesweeperAI.t) (c : cell) :
  MinesweeperAI.mark_mine (MinesweeperAI.mark_mine ai c) c
    = MinesweeperAI.mark_mine ai c
  ∧ MinesweeperAI.mines (MinesweeperAI.mark_mine (MinesweeperAI.mark_mine ai c) c)
    = MinesweeperAI.mines (MinesweeperAI.mark_mine ai c)
  ∧ Forall2 (λ s2 s1, Sentence.cells s2 = Sentence.cells s1
                      ∧ Sentence.count s2 = Sentence.count s1)
      (MinesweeperAI.knowledge
         (MinesweeperAI.mark_mine (MinesweeperAI.mark_mine ai c) c))
      (MinesweeperAI.knowledge (MinesweeperAI.mark_mine ai c)).
Proof.
  assert (MinesweeperAI.mark_mine (MinesweeperAI.mark_mine ai c) c
          = MinesweeperAI.mark_mine ai c) as Heq.
  { unfold MinesweeperAI.mark_mine. cbn [MinesweeperAI.height
      MinesweeperAI.width MinesweeperAI.moves_made MinesweeperAI.mines
      MinesweeperAI.safes MinesweeperAI.knowledge].
    f_equal.
    - set_solver.
    - rewrite <- list_fmap_compose. apply list_fmap_ext.
      intros i s _. apply sentence_mark_mine_twice. }
  rewrite Heq. split; [done|]. split; [done|].
  apply Forall2_same_length_lookup. split; [done|].
  intros i s2 s1 H2 H1. by simplify_eq.
Qed.

(** * Engine: the saturation loop *)

Section saturation.
Import MinesweeperAI.
Implicit Types (ai : MinesweeperAI.t) (c : cell) (s : Sentence.t).
Implicit Types (l : list cell) (kb : list Sentence.t).

Lemma cells_foldl_mark_safe s l :
  Sentence.cells (foldl Sentence.mark_safe s l)
  = Sentence.cells s ∖ list_to_set l.
Proof.
  revert s. induction l as [|c l IH]; intros s; cbn [foldl].
  - set_solver.
  - rewrite IH, cells_mark_safe. set_solver.
Qed.

Lemma cells_foldl_mark_mine s l :
  Sentence.cells (foldl Sentence.mark_mine s l)
  = Sentence.cells s ∖ list_to_set l.
Proof.
  revert s. induction l as [|c l IH]; intros s; cbn [foldl].
  - set_solver.
  - rewrite IH, cells_mark_mine. set_solver.
Qed.

Lemma knowledge_foldl_mark_safe ai l :
  knowledge (foldl mark_safe ai l)
  = (λ s, foldl Sentence.mark_safe s l) <$> knowledge ai.
Proof.
  revert ai. induction l as [|c l IH]; intros ai; cbn [foldl].
  - by rewrite list_fmap_id.
  - rewrite IH. unfold mark_safe at 1. cbn [knowledge].
    by rewrite <- list_fmap_compose.
Qed.

Lemma knowledge_foldl_mark_mine ai l :
  knowledge (foldl mark_mine ai l)
  = (λ s, foldl Sentence.mark_mine s l) <$> knowledge ai.
Proof.
  revert ai. induction l as [|c l IH]; intros ai; cbn [foldl].
  - by rewrite list_fmap_id.
  - rewrite IH. unfold mark_mine at 1. cbn [knowledge].
    by rewrite <- list_fmap_compose.
Qed.

Lemma weight_fmap_le (f : Sentence.t → Sentence.t) kb :
  (∀ s, Sentence.cells (f s) ⊆ Sentence.cells s) →
  (weight (f <$> kb) ≤ weight kb)%nat.
Proof.
  intros Hf. unfold weight. induction kb as [|s kb IH]; [done|].
  rewrite fmap_cons. cbn [sum_list_with].
  pose proof (subseteq_size _ _ (Hf s)). lia.
Qed.

Lemma weight_fmap_lt (f : Sentence.t → Sentence.t) kb (i : nat) s :
  (∀ s, Sentence.cells (f s) ⊆ Sentence.cells s) →
  kb !! i = Some s →
  Sentence.cells s ≠ ∅ → Sentence.cells (f s) = ∅ →
  (weight (f <$> kb) < weight kb)%nat.
Proof.
  intros Hf Hi Hne He. revert i Hi.
  induction kb as [|s0 kb IH]; intros i Hi; [done|].
  pose proof (weight_fmap_le f kb Hf) as Hle.
  unfold weight in *. rewrite fmap_cons. cbn [sum_list_with].
  destruct i as [|i]; cbn in Hi.
  - simplify_eq. rewrite He, size_empty.
    assert (size (Sentence.cells s) ≠ 0%nat)
      by (rewrite size_non_empty_iff; by intros ?%leibniz_equiv).
    lia.
  - specialize (IH i Hi). pose proof (subseteq_size _ _ (Hf s0)). lia.
Qed.

Lemma memberships_mark_safe_le ai l :
  (memberships (foldl mark_safe ai l) ≤ memberships ai)%nat.
Proof.
  unfold memberships. rewrite knowledge_foldl_mark_safe.
  apply weight_fmap_le. intros s. rewrite cells_foldl_mark_safe. set_solver.
Qed.

Lemma memberships_mark_mine_le ai l :
  (memberships (foldl mark_mine ai l) ≤ memberships ai)%nat.
Proof.
  unfold memberships. rewrite knowledge_foldl_mark_mine.
  apply weight_fmap_le. intros s. rewrite cells_foldl_mark_mine. set_solver.
Qed.

Lemma memberships_mark_safe_lt ai (i : nat) s :
  knowledge ai !! i = Some s → Sentence.cells s ≠ ∅ →
  (memberships (foldl mark_safe ai (elements (Sentence.cells s)))
   < memberships ai)%nat.
Proof.
  intros Hi Hne. unfold memberships. rewrite knowledge_foldl_mark_safe.
  apply weight_fmap_lt with i s; [|done|done|].
  - intros s0. rewrite cells_foldl_mark_safe. set_solver.
  - rewrite cells_foldl_mark_safe. set_solver.
Qed.

Lemma memberships_mark_mine_lt ai (i : nat) s :
  knowledge ai !! i = Some s → Sentence.cells s ≠ ∅ →
  (memberships (foldl mark_mine ai (elements (Sentence.cells s)))
   < memberships ai)%nat.
Proof.
  intros Hi Hne. unfold memberships. rewrite knowledge_foldl_mark_mine.
  apply weight_fmap_lt with i s; [|done|done|].
  - intros s0. rewrite cells_foldl_mark_mine. set_solver.
  - rewrite cells_foldl_mark_mine. set_solver.
Qed.

Lemma known_safes_cases s :
  Sentence.known_safes s = ∅
  ∨ (Sentence.known_safes s = Sentence.cells s ∧ Sentence.count s = 0).
Proof. unfold Sentence.known_safes. case_decide; auto. Qed.

Lemma known_mines_cases s :
  Sentence.known_mines s = ∅
  ∨ (Sentence.known_mines s = Sentence.cells s
     ∧ Sentence.count s = Z.of_nat (size (Sentence.cells s))).
Proof. unfold Sentence.known_mines, Sentence.len. case_decide; auto. Qed.

(** A visit never adds a membership; when it raises [changes] it
    removes at least one. *)
Lemma visit_memberships ai (ch : bool) (i : nat) ai' (ch' : bool) :
  visit (ai, ch) i = (ai', ch') →
  (memberships ai' ≤ memberships ai)%nat
  ∧ (ch' = true → ch = true ∨ (memberships ai' < memberships ai)%nat).
Proof.
  unfold visit. destruct (knowledge ai !! i) as [s|] eqn:Hi.
  2:{ intros [= <- <-]. split; [lia | auto]. }
  destruct (decide (Sentence.known_safes s ≠ ∅)) as [Hs|Hs];
    destruct (decide (Sentence.known_mines s ≠ ∅)) as [Hm|Hm];
    intros [= <- <-].
  - destruct (known_safes_cases s) as [?|[Hks _]]; [done|].
    rewrite Hks in *.
    pose proof (memberships_mark_safe_lt ai i s Hi Hs).
    pose proof (memberships_mark_mine_le
      (foldl mark_safe ai (elements (Sentence.cells s)))
      (elements (Sentence.known_mines s))).
    split; [lia | intros _; right; lia].
  - destruct (known_safes_cases s) as [?|[Hks _]]; [done|].
    rewrite Hks in *.
    pose proof (memberships_mark_safe_lt ai i s Hi Hs).
    split; [lia | intros _; right; lia].
  - destruct (known_mines_cases s) as [?|[Hkm _]]; [done|].
    rewrite Hkm in *.
    pose proof (memberships_mark_mine_lt ai i s Hi Hm).
    split; [lia | intros _; right; lia].
  - split; [lia | auto].
Qed.

Lemma foldl_visit_memberships (idx : list nat) ai (ch : bool) ai' (ch' : bool) :
  foldl visit (ai, ch) idx = (ai', ch') →
  (memberships ai' ≤ memberships ai)%nat
  ∧ (ch' = true → ch = true ∨ (memberships ai' < memberships ai)%nat).
Proof.
  revert ai ch. induction idx as [|i idx IH]; intros ai ch; cbn [foldl].
  - intros [= <- <-]. split; [lia | auto].
  - destruct (visit (ai, ch) i) as [ai1 ch1] eqn:Hv. intros Hf.
    apply visit_memberships in Hv as [Hle1 Hch1].
    apply IH in Hf as [Hle2 Hch2].
    split; [lia|]. intros Ht.
    destruct (Hch2 Ht) as [Ht1|Hlt]; [|right; lia].
    destruct (Hch1 Ht1) as [?|Hlt]; [by left | right; lia].
Qed.

Lemma pass_decreases ai ai' :
  pass ai = (ai', true) → (memberships ai' < memberships ai)%nat.
Proof.
  unfold pass. intros Hp.
  apply foldl_visit_memberships in Hp as [_ Hch].
  by destruct (Hch eq_refl).
Qed.

Lemma pass_le ai : (memberships (pass ai).1 ≤ memberships ai)%nat.
Proof.
  unfold pass.
  destruct (foldl visit (ai, false) (seq 0 (length (knowledge ai))))
    as [ai' ch'] eqn:Hp.
  by apply foldl_visit_memberships in Hp as [Hle _].
Qed.

(** A visit that leaves [changes] false has touched nothing. *)
Lemma visit_unchanged ai (ch : bool) (i : nat) ai' :
  visit (ai, ch) i = (ai', false) → ai' = ai ∧ ch = false.
Proof.
  unfold visit. destruct (knowledge ai !! i) as [s|].
  2:{ by intros [= <- <-]. }
  repeat case_decide; by intros [= <- <-].
Qed.

Lemma foldl_visit_unchanged (idx : list nat) ai (ch : bool) ai' :
  foldl visit (ai, ch) idx = (ai', false) → ai' = ai ∧ ch = false.
Proof.
  revert ai ch. induction idx as [|i idx IH]; intros ai ch; cbn [foldl].
  - by intros [= <- <-].
  - destruct (visit (ai, ch) i) as [ai1 ch1] eqn:Hv. intros Hf.
    apply IH in Hf as [-> ->]. by apply visit_unchanged in Hv.
Qed.

Lemma pass_unchanged ai ai' : pass ai = (ai', false) → ai' = ai.
Proof.
  unfold pass. intros Hp. by apply foldl_visit_unchanged in Hp as [-> _].
Qed.

Lemma saturate_enough_fuel (fuel : nat) ai :
  (memberships ai < fuel)%nat → is_Some (saturate fuel ai).
Proof.
  revert ai. induction fuel as [|fuel IH]; intros ai Hlt; [lia|].
  cbn [saturate]. destruct (pass ai) as [ai' [|]] eqn:Hp; [|done].
  apply IH. apply pass_decreases in Hp. lia.
Qed.

Lemma saturate_more_fuel (fuel fuel' : nat) ai ai' :
  saturate fuel ai = Some ai' → (fuel ≤ fuel')%nat →
  saturate fuel' ai = Some ai'.
Proof.
  revert fuel' ai. induction fuel as [|fuel IH]; intros fuel' ai; [done|].
  intros Hs Hle. destruct fuel' as [|fuel']; [lia|].
  cbn [saturate] in *. destruct (pass ai) as [ai1 [|]]; [|done].
  apply IH; [done | lia].
Qed.

(** What the loop returns is a fixed point of [pass]. *)
Lemma saturate_fixed (fuel : nat) ai ai' :
  saturate fuel ai = Some ai' → pass ai' = (ai', false).
Proof.
  revert ai. induction fuel as [|fuel IH]; intros ai; [done|].
  cbn [saturate]. destruct (pass ai) as [ai1 [|]] eqn:Hp.
  - apply IH.
  - intros [= <-]. by pose proof (pass_unchanged _ _ Hp) as ->.
Qed.

Lemma saturate_total ai :
  ∃ ai', saturate (S (memberships ai)) ai = Some ai'.
Proof.
  destruct (saturate_enough_fuel (S (memberships ai)) ai) as [ai' H];
    [lia | eauto].
Qed.

Lemma update_knowledge_base_unfold ai ai' :
  saturate (S (memberships ai)) ai = Some ai' →
  update_knowledge_base ai = prune ai'.
Proof. intros H. unfold update_knowledge_base. by rewrite H. Qed.

End saturation.

(** C10. The saturation loop of [update_knowledge_base] terminates on
    every engine: a pass that reports a change removes at least one
    (sentence, cell) membership, so with more passes allowed than there
    are memberships the loop returns, at an engine on which a further
    pass changes nothing. *)
Theorem update_knowledge_base_terminates (ai : MinesweeperAI.t) :
  (∀ ai', MinesweeperAI.pass ai = (ai', true) →
     (MinesweeperAI.memberships ai' < MinesweeperAI.memberships ai)%nat)
  ∧ ∃ ai',
      (∀ fuel, (MinesweeperAI.memberships ai < fuel)%nat →
         MinesweeperAI.saturate fuel ai = Some ai')
      ∧ MinesweeperAI.pass ai' = (ai', false)
      ∧ MinesweeperAI.update_knowledge_base ai = MinesweeperAI.prune ai'.
Proof.
  split; [apply pass_decreases|].
  destruct (saturate_total ai) as [ai' Hs]. exists ai'.
  split; [|split].
  - intros fuel Hlt. apply saturate_more_fuel with (1 := Hs). lia.
  - by apply saturate_fixed in Hs.
  - by apply update_knowledge_base_unfold.
Qed.

Lemma update_knowledge_base_terminates_witness :
  (MinesweeperAI.memberships (MinesweeperAI.pass ai_one_mine).1
   < MinesweeperAI.memberships ai_one_mine)%nat
  ∧ is_Some (MinesweeperAI.saturate 2 ai_one_mine).
Proof.
  destruct (update_knowledge_base_terminates ai_one_mine)
    as [Hdec (ai' & Hfuel & _)].
  split.
  - apply Hdec. vm_compute. reflexivity.
  - exists ai'. apply Hfuel. vm_compute. lia.
Defined.

(** * Engine: subset resolution *)

Section resolution.
Import MinesweeperAI.
Implicit Types (ai : MinesweeperAI.t) (s : Sentence.t).
Implicit Types (kb inferred : list Sentence.t).

Lemma infer_pair_grows kb s1 inferred s2 s :
  s ∈ inferred → s ∈ infer_pair kb s1 inferred s2.
Proof.
  intros Hs. unfold infer_pair. repeat case_decide; [|done..].
  apply elem_of_app. by left.
Qed.

Lemma infer_pair_covers kb s1 inferred s2 :
  resolvable s1 s2 →
  derived s1 s2 ∈ kb ∨ derived s1 s2 ∈ infer_pair kb s1 inferred s2.
Proof.
  intros Hr. unfold infer_pair. rewrite decide_True by exact Hr.
  fold (derived s1 s2).
  destruct (decide (derived s1 s2 ∈ kb)) as [?|Hkb]; [by left|]. right.
  case_decide as Hd.
  - apply elem_of_app. right. by apply list_elem_of_singleton.
  - apply not_and_l in Hd as [Hd|Hd]; [done|]. by apply dec_stable in Hd.
Qed.

Lemma infer_pair_staged kb s1 inferred s2 :
  s1 ∈ kb → s2 ∈ kb → staged kb inferred →
  staged kb (infer_pair kb s1 inferred s2).
Proof.
  intros H1 H2 [Hnd Hc]. unfold infer_pair.
  case_decide as Hr; [|done]. fold (derived s1 s2).
  case_decide as Hd; [|done]. destruct Hd as [Hkb Hinf]. split.
  - apply NoDup_app. split; [done|]. split; [|apply NoDup_singleton].
    intros s Hs ->%list_elem_of_singleton. done.
  - intros s [Hs| ->%list_elem_of_singleton]%elem_of_app; [by apply Hc|].
    split; [done|]. by exists s1, s2.
Qed.

(** The inner loop, over any stretch [l] of the knowledge list. *)
Lemma inner_loop_spec kb s1 (l : list Sentence.t) inferred :
  let inferred' := foldl (infer_pair kb s1) inferred l in
  (∀ s, s ∈ inferred → s ∈ inferred')
  ∧ (∀ s2, s2 ∈ l → resolvable s1 s2 →
       derived s1 s2 ∈ kb ∨ derived s1 s2 ∈ inferred')
  ∧ (s1 ∈ kb → l ⊆ kb → staged kb inferred → staged kb inferred').
Proof.
  revert inferred. induction l as [|s2 l IH]; intros inferred; cbn [foldl].
  - split; [done|]. split; [|done]. intros s2 Hs2. by apply elem_of_nil in Hs2.
  - destruct (IH (infer_pair kb s1 inferred s2)) as (Hg & Hc & Hst).
    split; [|split].
    + intros s Hs. by apply Hg, infer_pair_grows.
    + intros s2' [->|Hs2']%elem_of_cons Hr; [|by apply Hc].
      destruct (infer_pair_covers kb s1 inferred s2 Hr); [by left|].
      right. by apply Hg.
    + intros H1 Hl Hi. apply Hst; [done|set_solver|].
      apply infer_pair_staged; [done|set_solver|done].
Qed.

(** The outer loop, over any stretch [l1] of the knowledge list. *)
Lemma outer_loop_spec kb (l1 : list Sentence.t) inferred :
  let inferred' :=
    foldl (λ inferred s1, foldl (infer_pair kb s1) inferred kb)
          inferred l1 in
  (∀ s, s ∈ inferred → s ∈ inferred')
  ∧ (∀ s1 s2, s1 ∈ l1 → s2 ∈ kb → resolvable s1 s2 →
       derived s1 s2 ∈ kb ∨ derived s1 s2 ∈ inferred')
  ∧ (l1 ⊆ kb → staged kb inferred → staged kb inferred').
Proof.
  revert inferred. induction l1 as [|s1 l1 IH]; intros inferred; cbn [foldl].
  - split; [done|]. split; [|done].
    intros s1 s2 Hs1. by apply elem_of_nil in Hs1.
  - destruct (inner_loop_spec kb s1 kb inferred) as (Hg1 & Hc1 & Hst1).
    destruct (IH (foldl (infer_pair kb s1) inferred kb)) as (Hg & Hc & Hst).
    split; [|split].
    + intros s Hs. by apply Hg, Hg1.
    + intros s1' s2 [->|Hs1']%elem_of_cons Hs2 Hr; [|by apply Hc].
      destruct (Hc1 s2 Hs2 Hr); [by left|]. right. by apply Hg.
    + intros Hl Hi. apply Hst; [set_solver|].
      apply Hst1; [set_solver|done|done].
Qed.

Lemma inferred_sentences_spec kb :
  NoDup (inferred_sentences kb)
  ∧ ∀ s, s ∈ inferred_sentences kb ↔ candidate kb s.
Proof.
  destruct (outer_loop_spec kb kb []) as (_ & Hc & Hst).
  fold (inferred_sentences kb) in *.
  destruct Hst as [Hnd Hcand]; [done| |].
  { split; [apply NoDup_nil_2|]. intros s Hs. by apply elem_of_nil in Hs. }
  split; [done|]. intros s. split; [apply Hcand|].
  intros (Hkb & s1 & s2 & H1 & H2 & Hr & ->).
  by destruct (Hc s1 s2 H1 H2 Hr).
Qed.

End resolution.

(** C1. [infer_new_sentences] appends to [knowledge] a duplicate-free
    list of sentences, and changes nothing else. A sentence is appended
    exactly when it is not in [knowledge] already and is derived from two
    unequal sentences [s1], [s2] of [knowledge] with
    [s1.cells ⊆ s2.cells], as cells [s2.cells − s1.cells] with count
    [s2.count − s1.count]. Hence every such derived sentence is in
    [knowledge] afterwards. With [{a, b, c}] count 1 and [{a, b}] count 1
    in [knowledge] ([c] different from [a] and [b]), [{c}] count 0 is in
    [knowledge] afterwards. *)
Theorem infer_new_sentences_spec (ai : MinesweeperAI.t) :
  let kb := MinesweeperAI.knowledge ai in
  let ai' := MinesweeperAI.infer_new_sentences ai in
  (∃ inferred,
      ai' = MinesweeperAI.set_knowledge ai (kb ++ inferred)
      ∧ NoDup inferred
      ∧ ∀ s, s ∈ inferred ↔
          (s ∉ kb)
          ∧ ∃ s1 s2, s1 ∈ kb ∧ s2 ∈ kb
              ∧ s1 ≠ s2 ∧ Sentence.cells s1 ⊆ Sentence.cells s2
              ∧ s = Sentence.Sentence
                      (Sentence.cells s2 ∖ Sentence.cells s1)
                      (Sentence.count s2 - Sentence.count s1))
  ∧ (∀ s1 s2, s1 ∈ kb → s2 ∈ kb →
       s1 ≠ s2 → Sentence.cells s1 ⊆ Sentence.cells s2 →
       Sentence.Sentence (Sentence.cells s2 ∖ Sentence.cells s1)
                         (Sentence.count s2 - Sentence.count s1)
         ∈ MinesweeperAI.knowledge ai')
  ∧ (∀ a b c : cell, c ≠ a → c ≠ b →
       Sentence.Sentence {[a; b; c]} 1 ∈ kb →
       Sentence.Sentence {[a; b]} 1 ∈ kb →
       Sentence.Sentence {[c]} 0 ∈ MinesweeperAI.knowledge ai').
Proof.
  intros kb ai'.
  destruct (inferred_sentences_spec kb) as [Hnd Hiff].
  assert (∀ s1 s2, s1 ∈ kb → s2 ∈ kb →
            s1 ≠ s2 → Sentence.cells s1 ⊆ Sentence.cells s2 →
            derived s1 s2 ∈ MinesweeperAI.knowledge ai') as Hall.
  { intros s1 s2 H1 H2 Hne Hsub. unfold ai', MinesweeperAI.infer_new_sentences.
    cbn [MinesweeperAI.set_knowledge MinesweeperAI.knowledge]. fold kb.
    apply elem_of_app.
    destruct (decide (derived s1 s2 ∈ kb)) as [?|Hkb]; [by left|]. right.
    apply Hiff. split; [done|]. by exists s1, s2. }
  split; [|split].
  - exists (MinesweeperAI.inferred_sentences kb).
    split; [done|]. split; [done|].
    intros s. rewrite Hiff. unfold candidate, resolvable, derived. split.
    + intros (Hkb & s1 & s2 & H1 & H2 & [Hne Hsub] & ->).
      split; [done|]. by exists s1, s2.
    + intros (Hkb & s1 & s2 & H1 & H2 & Hne & Hsub & ->).
      split; [done|]. by exists s1, s2.
  - exact Hall.
  - intros a b c Hca Hcb Habc Hab.
    assert (derived (Sentence.Sentence {[a; b]} 1)
                    (Sentence.Sentence {[a; b; c]} 1)
            = Sentence.Sentence {[c]} 0) as <-.
    { unfold derived. cbn [Sentence.cells Sentence.count]. f_equal.
      set_solver. }
    apply Hall; [done|done| |cbn [Sentence.cells]; set_solver].
    intros Heq. apply (f_equal Sentence.cells) in Heq.
    cbn [Sentence.cells] in Heq. apply Hcb.
    assert (c ∈ ({[a; b]} : gset cell)) as Hc by (rewrite Heq; set_solver).
    set_solver.
Qed.

Lemma infer_new_sentences_witness :
  Sentence.Sentence {[C0]} 0
    ∈ MinesweeperAI.knowledge (MinesweeperAI.infer_new_sentences ai_subset_pair).
Proof.
  destruct (infer_new_sentences_spec ai_subset_pair) as (_ & _ & Hex).
  apply (Hex A0 B0 C0).
  - discriminate.
  - discriminate.
  - by_evaluation.
  - by_evaluation.
Defined.

(** * Move queries *)

Lemma random_choice_elem {A : Type} (l : list A) (r : nat) :
  l ≠ [] → ∃ x, random_choice l r = Returned x ∧ x ∈ l.
Proof.
  destruct l as [|x l]; [done|]. intros _. unfold random_choice.
  eexists. split; [done|].
  apply list_elem_of_In, nth_In, Nat.mod_upper_bound. done.
Qed.

(** Every element of the sequence is the choice for some entropy. *)
Lemma random_choice_any {A : Type} (l : list A) (x : A) :
  x ∈ l → ∃ r, random_choice l r = Returned x.
Proof.
  intros Hx. destruct l as [|y l]; [by apply elem_of_nil in Hx|].
  apply list_elem_of_lookup in Hx as [i Hi].
  exists i. unfold random_choice. f_equal.
  pose proof (lookup_lt_Some _ _ _ Hi) as Hlt.
  rewrite Nat.mod_small by done.
  by apply nth_lookup_Some.
Qed.

Section queries.
Import MinesweeperAI.
Implicit Types (ai : MinesweeperAI.t) (c : cell).

Lemma elem_of_safe_candidates ai c :
  c ∈ safe_candidates ai ↔ c ∈ safes ai ∖ moves_made ai.
Proof.
  unfold safe_candidates. rewrite list_elem_of_filter, elem_of_elements.
  set_solver.
Qed.

Lemma elem_of_random_candidates ai c :
  c ∈ random_candidates ai
  ↔ in_bounds ai c ∧ (c ∉ moves_made ai) ∧ (c ∉ mines ai).
Proof.
  unfold random_candidates, in_bounds. destruct c as [row col].
  rewrite list_elem_of_bind. split.
  - intros (row' & Hcol & Hrow). apply elem_of_seqZ in Hrow.
    apply list_elem_of_bind in Hcol as (col' & Hc & Hcol).
    apply elem_of_seqZ in Hcol. case_decide as Hd.
    + apply list_elem_of_singleton in Hc. simplify_eq. simpl.
      destruct Hd. repeat split; first [lia | done].
    + by apply elem_of_nil in Hc.
  - simpl. intros ([Hr Hc] & Hmv & Hmn). exists row. split.
    + apply list_elem_of_bind. exists col. split.
      * rewrite decide_True by done. by apply list_elem_of_singleton.
      * apply elem_of_seqZ. lia.
    + apply elem_of_seqZ. lia.
Qed.

Lemma choose_move_spec (possible_moves : list cell) (r : nat) :
  ∃ v,
    match possible_moves with
    | [] => Returned None
    | _ :: _ =>
        match random_choice possible_moves r with
        | Returned c => Returned (Some c)
        | Raised_IndexError => Raised_IndexError
        end
    end = Returned v
    ∧ ((v = None) ↔ possible_moves = [])
    ∧ (∀ c, v = Some c → c ∈ possible_moves).
Proof.
  destruct possible_moves as [|x l] eqn:E.
  - exists None. repeat split; done.
  - rewrite <- E.
    destruct (random_choice_elem possible_moves r) as (c & Hc & Hin);
      [by subst|].
    rewrite Hc. exists (Some c). split; [done|]. split.
    + split; [done|]. by subst.
    + intros c' [= <-]. done.
Qed.

(** *** Method bodies that only read *)

Lemma read_only_ret {A : Type} (a : A) : read_only (ret a).
Proof. by intros ai. Qed.

Lemma read_only_read {A : Type} (field : MinesweeperAI.t → A) :
  read_only (read field).
Proof. by intros ai. Qed.

Lemma read_only_lift {A : Type} (o : outcome A) : read_only (lift o).
Proof. by intros ai. Qed.

Lemma read_only_bind {A B : Type} (m : method A) (k : A → method B) :
  read_only m → (∀ a, read_only (k a)) → read_only (bind m k).
Proof.
  intros Hm Hk ai. unfold bind. specialize (Hm ai).
  destruct (m ai) as [[a|] ai']; cbn [snd] in Hm; subst ai'; [|done].
  apply Hk.
Qed.

Lemma read_only_for_each {A B : Type} (xs : list A) (acc : B)
    (body : B → A → method B) :
  (∀ acc' a, read_only (body acc' a)) → read_only (for_each xs acc body).
Proof.
  intros Hbody. revert acc. induction xs as [|a xs IH]; intros acc;
    cbn [for_each].
  - apply read_only_ret.
  - apply read_only_bind; [apply Hbody | intros acc'; apply IH].
Qed.

Lemma read_only_choice_or_none (possible_moves : list cell) (r : nat) :
  read_only (choice_or_none possible_moves r).
Proof.
  unfold choice_or_none. destruct possible_moves; [apply read_only_ret|].
  apply read_only_bind; [apply read_only_lift | intros; apply read_only_ret].
Qed.

(** A body with an update in place is not read-only. *)
Lemma assign_not_read_only :
  ¬ read_only (let* _ := assign (λ self, mark_safe self (0, 0)) in ret tt).
Proof.
  intros H. specialize (H (init 1 1)).
  apply (f_equal safes) in H. cbn in H.
  assert ((0, 0) ∈ (∅ : gset cell)) as Hin by (rewrite <- H; set_solver).
  set_solver.
Qed.

(** *** What the two loops collect *)

Lemma bind_read {A B : Type} (field : MinesweeperAI.t → A)
    (k : A → method B) ai :
  bind (read field) k ai = k (field ai) ai.
Proof. done. Qed.

Lemma collect_safe_moves ai (xs acc : list cell) :
  for_each xs acc
    (λ possible_moves c,
       let* played := read moves_made in
       if decide (c ∉ played)
       then ret (possible_moves ++ [c])
       else ret possible_moves) ai
  = (Returned (acc ++ filter (λ c, c ∉ moves_made ai) xs), ai).
Proof.
  revert acc. induction xs as [|c xs IH]; intros acc; cbn [for_each].
  - by rewrite app_nil_r.
  - rewrite filter_cons. unfold bind at 1. rewrite bind_read.
    destruct (decide (c ∉ moves_made ai)); cbn [ret]; rewrite IH.
    + by rewrite <- app_assoc.
    + done.
Qed.

Lemma collect_row ai (row : Z) (cols : list Z) (acc : list cell) :
  for_each cols acc
    (λ possible_moves col,
       let* played := read moves_made in
       if decide ((row, col) ∉ played) then
         let* known_mines := read mines in
         if decide ((row, col) ∉ known_mines)
         then ret (possible_moves ++ [(row, col)])
         else ret possible_moves
       else ret possible_moves) ai
  = (Returned
       (acc ++ (col ← cols;
                if decide (((row, col) ∉ moves_made ai)
                           ∧ ((row, col) ∉ mines ai))
                then [(row, col)] else [])), ai).
Proof.
  revert acc. induction cols as [|col cols IH]; intros acc; cbn [for_each].
  - by rewrite app_nil_r.
  - rewrite bind_cons. unfold bind at 1. rewrite bind_read.
    destruct (decide ((row, col) ∉ moves_made ai)) as [Hp|Hp].
    + rewrite bind_read.
      destruct (decide ((row, col) ∉ mines ai)) as [Hm|Hm]; cbn [ret];
        rewrite IH.
      * rewrite decide_True by done. by rewrite <- app_assoc.
      * by rewrite decide_False by tauto.
    + cbn [ret]. rewrite IH. by rewrite decide_False by tauto.
Qed.

Lemma collect_board ai (rows : list Z) (acc : list cell) :
  for_each rows acc
    (λ possible_moves row,
       let* columns := read width in
       for_each (seqZ 0 columns) possible_moves
         (λ possible_moves col,
            let* played := read moves_made in
            if decide ((row, col) ∉ played) then
              let* known_mines := read mines in
              if decide ((row, col) ∉ known_mines)
              then ret (possible_moves ++ [(row, col)])
              else ret possible_moves
            else ret possible_moves)) ai
  = (Returned
       (acc ++ (row ← rows;
                col ← seqZ 0 (width ai);
                if decide (((row, col) ∉ moves_made ai)
                           ∧ ((row, col) ∉ mines ai))
                then [(row, col)] else [])), ai).
Proof.
  revert acc. induction rows as [|row rows IH]; intros acc; cbn [for_each].
  - by rewrite app_nil_r.
  - rewrite bind_cons. unfold bind at 1. rewrite bind_read.
    rewrite collect_row, IH. by rewrite <- app_assoc.
Qed.

Lemma choice_or_none_fst ai (possible_moves : list cell) (r : nat) :
  (choice_or_none possible_moves r ai).1
  = match possible_moves with
    | [] => Returned None
    | _ :: _ =>
        match random_choice possible_moves r with
        | Returned c => Returned (Some c)
        | Raised_IndexError => Raised_IndexError
        end
    end.
Proof.
  unfold choice_or_none. destruct possible_moves as [|x l]; [done|].
  unfold bind, lift. by destruct (random_choice (x :: l) r).
Qed.

Lemma make_safe_move_fst ai (r : nat) :
  (make_safe_move ai r).1
  = match safe_candidates ai with
    | [] => Returned None
    | _ :: _ =>
        match random_choice (safe_candidates ai) r with
        | Returned c => Returned (Some c)
        | Raised_IndexError => Raised_IndexError
        end
    end.
Proof.
  unfold make_safe_move. rewrite bind_read.
  unfold bind at 1. rewrite collect_safe_moves. cbn [app].
  apply choice_or_none_fst.
Qed.

Lemma make_random_move_fst ai (r : nat) :
  (make_random_move ai r).1
  = match random_candidates ai with
    | [] => Returned None
    | _ :: _ =>
        match random_choice (random_candidates ai) r with
        | Returned c => Returned (Some c)
        | Raised_IndexError => Raised_IndexError
        end
    end.
Proof.
  unfold make_random_move. rewrite bind_read.
  unfold bind at 1. rewrite collect_board. cbn [app].
  apply choice_or_none_fst.
Qed.

End queries.

(** C7. On a fresh 3×3 engine, [add_knowledge((1,1), 1)] leaves [(0,0)]
    in neither [safes] nor [mines]: the only safe cell is [(1,1)], no
    mine is known, and the single sentence over the eight neighbours with
    count 1 stays in [knowledge]. *)
Theorem single_observation_leaves_corner_undetermined :
  let ai := MinesweeperAI.add_knowledge (MinesweeperAI.init 3 3) (1, 1) 1 in
  ((0, 0) ∉ MinesweeperAI.safes ai)
  ∧ ((0, 0) ∉ MinesweeperAI.mines ai)
  ∧ MinesweeperAI.safes ai = {[ (1, 1) ]}
  ∧ MinesweeperAI.mines ai = ∅
  ∧ MinesweeperAI.knowledge ai
    = [ Sentence.Sentence
          {[ (0, 0); (0, 1); (0, 2); (1, 0); (1, 2); (2, 0); (2, 1); (2, 2) ]}
          1 ].
Proof.
  intros ai.
  assert (MinesweeperAI.safes ai = {[ (1, 1) ]}) as Hs
    by (vm_compute; reflexivity).
  assert (MinesweeperAI.mines ai = ∅) as Hm by (vm_compute; reflexivity).
  rewrite Hs, Hm.
  split; [set_solver|]. split; [set_solver|].
  split; [done|]. split; [done|].
  vm_compute. reflexivity.
Qed.

(** C8. Neither query raises. [make_safe_move] returns [None] exactly
    when [safes \ moves_made] is empty and otherwise a member of that
    set; [make_random_move] returns [None] exactly when every cell of the
    board is in [moves_made] or [mines] and otherwise a board cell that
    is in neither. *)
Theorem move_queries_spec (ai : MinesweeperAI.t) (r : nat) :
  (∃ v, (MinesweeperAI.make_safe_move ai r).1 = Returned v
     ∧ ((v = None)
        ↔ MinesweeperAI.safes ai ∖ MinesweeperAI.moves_made ai = ∅)
     ∧ (∀ c, v = Some c →
          c ∈ MinesweeperAI.safes ai ∖ MinesweeperAI.moves_made ai))
  ∧ (∃ v, (MinesweeperAI.make_random_move ai r).1 = Returned v
     ∧ ((v = None)
        ↔ ∀ c, MinesweeperAI.in_bounds ai c →
               c ∈ MinesweeperAI.moves_made ai ∨ c ∈ MinesweeperAI.mines ai)
     ∧ (∀ c, v = Some c →
          MinesweeperAI.in_bounds ai c
          ∧ (c ∉ MinesweeperAI.moves_made ai)
          ∧ (c ∉ MinesweeperAI.mines ai))).
Proof.
  split.
  - destruct (choose_move_spec (safe_candidates ai) r) as (v & Hv & Hn & Hs).
    exists v. split; [by rewrite make_safe_move_fst|]. split.
    + rewrite Hn. split.
      * intros Hnil. apply set_eq. intros c.
        rewrite <- elem_of_safe_candidates, Hnil. set_solver.
      * intros Hemp. apply elem_of_nil_inv. intros c.
        rewrite elem_of_safe_candidates, Hemp. set_solver.
    + intros c Hc. by apply elem_of_safe_candidates, Hs.
  - destruct (choose_move_spec (random_candidates ai) r)
      as (v & Hv & Hn & Hs).
    exists v. split; [by rewrite make_random_move_fst|]. split.
    + rewrite Hn. split.
      * intros Hnil c Hb.
        destruct (decide (c ∈ MinesweeperAI.moves_made ai)); [by left|].
        destruct (decide (c ∈ MinesweeperAI.mines ai)); [by right|].
        assert (c ∈ random_candidates ai) as Hc
          by by apply elem_of_random_candidates.
        rewrite Hnil in Hc. by apply elem_of_nil in Hc.
      * intros Hall. apply elem_of_nil_inv. intros c.
        rewrite elem_of_random_candidates. intros (Hb & ? & ?).
        destruct (Hall c Hb); done.
    + intros c Hc. by apply elem_of_random_candidates, Hs.
Qed.

Lemma move_queries_witness :
  (0, 1) ∈ MinesweeperAI.safes ai_one_safe
           ∖ MinesweeperAI.moves_made ai_one_safe
  ∧ MinesweeperAI.in_bounds ai_one_safe (0, 1).
Proof.
  destruct (move_queries_spec ai_one_safe 0)
    as [(v & Hv & _ & Hs) (w & Hw & _ & Hr)].
  split.
  - apply Hs. vm_compute in Hv. by injection Hv.
  - destruct (Hr (0, 1)) as [Hb _]; [|exact Hb].
    vm_compute in Hw. by injection Hw.
Defined.

(** C9. [make_safe_move] and [make_random_move] leave the engine they
    are called on as it was, whatever the generator draws: [moves_made],
    [safes], [mines], [knowledge] with every sentence's cells and count,
    [height] and [width]. Every statement of the two bodies only reads
    [self]; a body with an update in place does not have the property
    ([assign_not_read_only]). *)
Theorem move_queries_read_only (ai : MinesweeperAI.t) (r : nat) :
  (MinesweeperAI.make_safe_move ai r).2 = ai
  ∧ (MinesweeperAI.make_random_move ai r).2 = ai.
Proof.
  split.
  - unfold MinesweeperAI.make_safe_move. revert ai.
    apply read_only_bind; [apply read_only_read | intros safe_cells].
    apply read_only_bind; [|intros; apply read_only_choice_or_none].
    apply read_only_for_each. intros possible_moves c.
    apply read_only_bind; [apply read_only_read | intros played].
    case_decide; apply read_only_ret.
  - unfold MinesweeperAI.make_random_move. revert ai.
    apply read_only_bind; [apply read_only_read | intros rows].
    apply read_only_bind; [|intros; apply read_only_choice_or_none].
    apply read_only_for_each. intros possible_moves row.
    apply read_only_bind; [apply read_only_read | intros columns].
    apply read_only_for_each. intros possible_moves' col.
    apply read_only_bind; [apply read_only_read | intros played].
    case_decide; [|apply read_only_ret].
    apply read_only_bind; [apply read_only_read | intros known_mines].
    case_decide; apply read_only_ret.
Qed.

(** * Sequences of observations: nothing is retracted *)

Section monotonicity.
Import MinesweeperAI.
Implicit Types (ai : MinesweeperAI.t) (c : cell) (l : list cell).

#[local] Instance grows_refl : Reflexive grows.
Proof. intros ai. by repeat split. Qed.

#[local] Instance grows_trans : Transitive grows.
Proof.
  intros a b c (?&?&?&?&?) (?&?&?&?&?).
  repeat split; first [congruence | set_solver].
Qed.

Lemma grows_mark_safe ai c : grows ai (mark_safe ai c).
Proof. repeat split; cbn; set_solver. Qed.

Lemma grows_mark_mine ai c : grows ai (mark_mine ai c).
Proof. repeat split; cbn; set_solver. Qed.

Lemma grows_set_knowledge ai kb : grows ai (set_knowledge ai kb).
Proof. by repeat split. Qed.

Lemma grows_foldl_mark_safe ai l : grows ai (foldl mark_safe ai l).
Proof.
  revert ai. induction l as [|c l IH]; intros ai; cbn [foldl]; [done|].
  etrans; [apply (grows_mark_safe ai c) | apply IH].
Qed.

Lemma grows_foldl_mark_mine ai l : grows ai (foldl mark_mine ai l).
Proof.
  revert ai. induction l as [|c l IH]; intros ai; cbn [foldl]; [done|].
  etrans; [apply (grows_mark_mine ai c) | apply IH].
Qed.

Lemma grows_visit ai (ch : bool) (i : nat) : grows ai (visit (ai, ch) i).1.
Proof.
  unfold visit. destruct (knowledge ai !! i) as [s|]; [|done].
  repeat case_decide; cbn [fst]; try done.
  - etrans; [apply grows_foldl_mark_safe | apply grows_foldl_mark_mine].
  - apply grows_foldl_mark_safe.
  - apply grows_foldl_mark_mine.
Qed.

Lemma grows_foldl_visit (idx : list nat) ai (ch : bool) :
  grows ai (foldl visit (ai, ch) idx).1.
Proof.
  revert ai ch. induction idx as [|i idx IH]; intros ai ch; cbn [foldl];
    [done|].
  pose proof (grows_visit ai ch i) as Hv.
  destruct (visit (ai, ch) i) as [ai1 ch1]. etrans; [exact Hv | apply IH].
Qed.

Lemma grows_pass ai : grows ai (pass ai).1.
Proof. apply grows_foldl_visit. Qed.

Lemma grows_saturate (fuel : nat) ai ai' :
  saturate fuel ai = Some ai' → grows ai ai'.
Proof.
  revert ai. induction fuel as [|fuel IH]; intros ai; [done|].
  cbn [saturate]. pose proof (grows_pass ai) as Hp.
  destruct (pass ai) as [ai1 [|]].
  - intros Hs. etrans; [exact Hp | by apply IH].
  - by intros [= <-].
Qed.

Lemma grows_update_knowledge_base ai : grows ai (update_knowledge_base ai).
Proof.
  destruct (saturate_total ai) as [ai' Hs].
  rewrite (update_knowledge_base_unfold _ _ Hs).
  etrans; [by eapply grows_saturate | apply grows_set_knowledge].
Qed.

Lemma grows_add_knowledge ai c (n : Z) : grows ai (add_knowledge ai c n).
Proof.
  unfold add_knowledge, infer_new_sentences.
  etrans; [|apply grows_set_knowledge].
  etrans; [|apply grows_update_knowledge_base].
  etrans; [|apply grows_set_knowledge].
  etrans; [|apply grows_mark_safe].
  repeat split; cbn; set_solver.
Qed.

Lemma grows_run ai (obs : list (cell * Z)) : grows ai (run ai obs).
Proof.
  revert ai. induction obs as [|o obs IH]; intros ai; [done|].
  cbn [run foldl]. etrans; [apply (grows_add_knowledge ai o.1 o.2)|].
  apply IH.
Qed.

Lemma run_app ai (obs1 obs2 : list (cell * Z)) :
  run ai (obs1 ++ obs2) = run (run ai obs1) obs2.
Proof. apply foldl_app. Qed.

End monotonicity.

(** * Sequences of observations: soundness for a mine layout *)

Section soundness.
Import MinesweeperAI.
Implicit Types (ai : MinesweeperAI.t) (c : cell) (s : Sentence.t).
Implicit Types (l : list cell).

(** The mines of the board, which the engine never sees. *)
Variable M : gset cell.

(** ** The sentence operations keep true sentences true *)

Lemma holds_mark_safe s c :
  c ∉ M → holds M s → holds M (Sentence.mark_safe s c).
Proof.
  unfold holds. intros Hc Hs. rewrite cells_mark_safe, count_mark_safe, Hs.
  do 2 f_equal. set_solver.
Qed.

Lemma holds_mark_mine s c :
  c ∈ M → holds M s → holds M (Sentence.mark_mine s c).
Proof.
  unfold holds. intros Hc Hs.
  destruct (decide (c ∈ Sentence.cells s)) as [Hin|Hout].
  - rewrite mark_mine_in by done. cbn [Sentence.cells Sentence.count].
    assert ((Sentence.cells s ∖ {[c]}) ∩ M
            = (Sentence.cells s ∩ M) ∖ {[c]}) as -> by set_solver.
    assert ({[c]} ⊆ Sentence.cells s ∩ M) as Hsub by set_solver.
    rewrite size_difference by done.
    apply subseteq_size in Hsub. rewrite size_singleton in *. lia.
  - by rewrite mark_mine_notin.
Qed.

Lemma holds_known_safes s : holds M s → Sentence.known_safes s ## M.
Proof.
  unfold holds. intros Hs.
  destruct (known_safes_cases s) as [->|[-> H0]]; [set_solver|].
  assert (size (Sentence.cells s ∩ M) = 0%nat) as He by lia.
  apply size_empty_inv in He. set_solver.
Qed.

Lemma holds_known_mines s : holds M s → Sentence.known_mines s ⊆ M.
Proof.
  unfold holds. intros Hs.
  destruct (known_mines_cases s) as [->|[-> Hn]]; [set_solver|].
  assert (Sentence.cells s ∩ M = Sentence.cells s) as He.
  { apply set_subseteq_size_eq; [set_solver | lia]. }
  set_solver.
Qed.

Lemma holds_derived s1 s2 :
  Sentence.cells s1 ⊆ Sentence.cells s2 →
  holds M s1 → holds M s2 → holds M (derived s1 s2).
Proof.
  unfold holds, derived. intros Hsub H1 H2.
  cbn [Sentence.cells Sentence.count].
  assert ((Sentence.cells s2 ∖ Sentence.cells s1) ∩ M
          = (Sentence.cells s2 ∩ M) ∖ (Sentence.cells s1 ∩ M)) as ->
    by set_solver.
  assert (Sentence.cells s1 ∩ M ⊆ Sentence.cells s2 ∩ M) as Hsub'
    by set_solver.
  rewrite size_difference by done. apply subseteq_size in Hsub'. lia.
Qed.

(** ** The engine operations keep a sound engine sound *)

Lemma sound_mark_safe ai c : c ∉ M → sound M ai → sound M (mark_safe ai c).
Proof.
  intros Hc (Hmv & Hsf & Hmn & Hkb). unfold sound, mark_safe.
  cbn [moves_made safes mines knowledge].
  split; [done|]. split; [set_solver|]. split; [done|].
  apply Forall_fmap. eapply Forall_impl; [exact Hkb|].
  intros s Hs. by apply holds_mark_safe.
Qed.

Lemma sound_mark_mine ai c : c ∈ M → sound M ai → sound M (mark_mine ai c).
Proof.
  intros Hc (Hmv & Hsf & Hmn & Hkb). unfold sound, mark_mine.
  cbn [moves_made safes mines knowledge].
  split; [done|]. split; [done|]. split; [set_solver|].
  apply Forall_fmap. eapply Forall_impl; [exact Hkb|].
  intros s Hs. by apply holds_mark_mine.
Qed.

Lemma sound_foldl_mark_safe ai l :
  (∀ c, c ∈ l → c ∉ M) → sound M ai → sound M (foldl mark_safe ai l).
Proof.
  revert ai. induction l as [|c l IH]; intros ai Hl Hai; cbn [foldl];
    [done|].
  apply IH; [set_solver|]. apply sound_mark_safe; [set_solver|done].
Qed.

Lemma sound_foldl_mark_mine ai l :
  (∀ c, c ∈ l → c ∈ M) → sound M ai → sound M (foldl mark_mine ai l).
Proof.
  revert ai. induction l as [|c l IH]; intros ai Hl Hai; cbn [foldl];
    [done|].
  apply IH; [set_solver|]. apply sound_mark_mine; [set_solver|done].
Qed.

Lemma sound_visit ai (ch : bool) (i : nat) :
  sound M ai → sound M (visit (ai, ch) i).1.
Proof.
  intros Hai. unfold visit.
  destruct (knowledge ai !! i) as [s|] eqn:Hi; [|done].
  assert (holds M s) as Hs.
  { destruct Hai as (_ & _ & _ & Hkb).
    by apply (Forall_lookup_1 _ _ _ _ Hkb Hi). }
  pose proof (holds_known_safes s Hs) as Hsafe.
  pose proof (holds_known_mines s Hs) as Hmine.
  assert (sound M (foldl mark_safe ai (elements (Sentence.known_safes s))))
    as Hai1.
  { apply sound_foldl_mark_safe; [|done].
    intros c Hc%elem_of_elements. set_solver. }
  repeat case_decide; cbn [fst]; try done.
  all: apply sound_foldl_mark_mine; [|done].
  all: intros c Hc%elem_of_elements; set_solver.
Qed.

Lemma sound_foldl_visit (idx : list nat) ai (ch : bool) :
  sound M ai → sound M (foldl visit (ai, ch) idx).1.
Proof.
  revert ai ch. induction idx as [|i idx IH]; intros ai ch Hai; cbn [foldl];
    [done|].
  pose proof (sound_visit ai ch i Hai) as Hv.
  destruct (visit (ai, ch) i) as [ai1 ch1]. by apply IH.
Qed.

Lemma sound_saturate (fuel : nat) ai ai' :
  saturate fuel ai = Some ai' → sound M ai → sound M ai'.
Proof.
  revert ai. induction fuel as [|fuel IH]; intros ai; [done|].
  cbn [saturate]. intros Hs Hai.
  pose proof (sound_foldl_visit (seq 0 (length (knowledge ai))) ai false
                Hai) as Hp.
  fold (pass ai) in Hp. destruct (pass ai) as [ai1 [|]].
  - by apply (IH ai1).
  - by injection Hs as <-.
Qed.

Lemma sound_prune ai : sound M ai → sound M (prune ai).
Proof.
  intros (Hmv & Hsf & Hmn & Hkb). repeat split; try done.
  cbn [prune set_knowledge knowledge]. rewrite Forall_forall in *.
  intros s [_ Hs]%list_elem_of_filter. by apply Hkb.
Qed.

Lemma sound_update_knowledge_base ai :
  sound M ai → sound M (update_knowledge_base ai).
Proof.
  intros Hai. destruct (saturate_total ai) as [ai' Hs].
  rewrite (update_knowledge_base_unfold _ _ Hs).
  apply sound_prune. by eapply sound_saturate.
Qed.

Lemma sound_infer_new_sentences ai :
  sound M ai → sound M (infer_new_sentences ai).
Proof.
  intros (Hmv & Hsf & Hmn & Hkb). repeat split; try done.
  cbn [infer_new_sentences set_knowledge knowledge].
  apply Forall_app. split; [done|]. apply Forall_forall. intros s Hs.
  apply inferred_sentences_spec in Hs
    as (_ & s1 & s2 & H1 & H2 & [_ Hsub] & ->).
  rewrite Forall_forall in Hkb. apply holds_derived; auto.
Qed.

Lemma in_bounds_board ai ai' c :
  height ai' = height ai → width ai' = width ai →
  in_bounds ai' c ↔ in_bounds ai c.
Proof. unfold in_bounds. by intros -> ->. Qed.

Lemma board_neighbors_board ai ai' c :
  height ai' = height ai → width ai' = width ai →
  board_neighbors ai' c = board_neighbors ai c.
Proof.
  intros Hh Hw. unfold board_neighbors. apply set_eq. intros x.
  rewrite !elem_of_list_to_set, !list_elem_of_filter.
  by rewrite (in_bounds_board ai ai' x Hh Hw).
Qed.

(** The sentence built by [add_knowledge] leaves out the neighbours
    already played; these are no mines, so the count is still right. *)
Lemma holds_new_sentence ai c (n : Z) :
  moves_made ai ## M → truthful M ai (c, n) →
  holds M (Sentence.Sentence (list_to_set (find_cell_neighbors ai c)) n).
Proof.
  intros Hmv [_ Hn]. unfold holds. cbn [Sentence.cells Sentence.count].
  cbn [fst snd] in Hn. rewrite Hn. do 2 f_equal.
  unfold board_neighbors, find_cell_neighbors. apply set_eq. intros x.
  rewrite !elem_of_intersection, !elem_of_list_to_set,
    !list_elem_of_filter.
  set_solver.
Qed.

Lemma sound_add_knowledge ai c (n : Z) :
  truthful M ai (c, n) → sound M ai → sound M (add_knowledge ai c n).
Proof.
  intros Ht Hai. pose proof Ht as [Hc _]. cbn [fst] in Hc.
  destruct Hai as (Hmv & Hsf & Hmn & Hkb).
  unfold add_knowledge.
  apply sound_infer_new_sentences, sound_update_knowledge_base.
  set (ai0 := {| height := height ai; width := width ai;
                 moves_made := moves_made ai ∪ {[c]};
                 mines := mines ai; safes := safes ai;
                 knowledge := knowledge ai |}).
  assert (sound M (mark_safe ai0 c)) as (Hmv1 & Hsf1 & Hmn1 & Hkb1).
  { apply sound_mark_safe; [done|].
    repeat split; cbn [ai0 moves_made safes mines knowledge];
      [set_solver|done..]. }
  repeat split; try done.
  cbn [set_knowledge knowledge]. apply Forall_app. split; [done|].
  apply Forall_singleton. apply holds_new_sentence; [done|].
  destruct Ht as [? Hn]. split; [done|]. cbn [fst snd] in *.
  by rewrite (board_neighbors_board ai (mark_safe ai0 c) c).
Qed.

Lemma sound_init (h w : Z) : sound M (init h w).
Proof.
  repeat split; cbn [init moves_made safes mines knowledge];
    [set_solver..|by apply Forall_nil].
Qed.

Lemma truthful_board ai ai' (o : cell * Z) :
  height ai' = height ai → width ai' = width ai →
  truthful M ai o → truthful M ai' o.
Proof.
  intros Hh Hw [? Hn]. split; [done|].
  by rewrite (board_neighbors_board ai ai' o.1 Hh Hw).
Qed.

Lemma sound_run ai (obs : list (cell * Z)) :
  Forall (truthful M ai) obs → sound M ai → sound M (run ai obs).
Proof.
  revert ai. induction obs as [|[c n] obs IH]; intros ai Hobs Hai; [done|].
  apply Forall_cons in Hobs as [Ho Hobs]. cbn [run foldl].
  destruct (grows_add_knowledge ai c n) as (Hh & Hw & _).
  apply IH; [|by apply sound_add_knowledge].
  eapply Forall_impl; [exact Hobs|]. intros o.
  by apply truthful_board.
Qed.

Lemma sound_disjoint ai : sound M ai → safes ai ## mines ai.
Proof. intros (_ & Hsf & Hmn & _). set_solver. Qed.

End soundness.

(** C3, as the code has it. Along any sequence of [add_knowledge] calls
    from a fresh engine, [safes] and [mines] only grow: every call of the
    engine's [mark_safe] and [mark_mine], the only writers of the two
    sets, keeps every cell already there, and so does every further run
    of observations. [safes] and [mines] are disjoint after every prefix
    of the sequence whenever the observations are truthful for one mine
    layout [M] (each observed cell is outside [M] and each count is the
    number of in-bounds neighbours in [M]); then no safe cell is in [M]
    and every known mine is. *)
Theorem safes_mines_grow_and_stay_disjoint
    (h w : Z) (obs1 obs2 : list (cell * Z)) :
  let ai1 := run (MinesweeperAI.init h w) obs1 in
  let ai2 := run (MinesweeperAI.init h w) (obs1 ++ obs2) in
  (∀ ai c,
      MinesweeperAI.safes ai ⊆ MinesweeperAI.safes (MinesweeperAI.mark_safe ai c)
      ∧ MinesweeperAI.mines ai ⊆ MinesweeperAI.mines (MinesweeperAI.mark_safe ai c)
      ∧ MinesweeperAI.safes ai ⊆ MinesweeperAI.safes (MinesweeperAI.mark_mine ai c)
      ∧ MinesweeperAI.mines ai ⊆ MinesweeperAI.mines (MinesweeperAI.mark_mine ai c))
  ∧ MinesweeperAI.safes ai1 ⊆ MinesweeperAI.safes ai2
  ∧ MinesweeperAI.mines ai1 ⊆ MinesweeperAI.mines ai2
  ∧ ∀ M : gset cell,
      Forall (truthful M (MinesweeperAI.init h w)) obs1 →
      MinesweeperAI.safes ai1 ## MinesweeperAI.mines ai1
      ∧ MinesweeperAI.safes ai1 ## M
      ∧ MinesweeperAI.mines ai1 ⊆ M.
Proof.
  intros ai1 ai2. split; [|split; [|split]].
  - intros ai c.
    destruct (grows_mark_safe ai c) as (_ & _ & _ & ? & ?).
    destruct (grows_mark_mine ai c) as (_ & _ & _ & ? & ?). done.
  - unfold ai2. rewrite run_app.
    by destruct (grows_run ai1 obs2) as (_ & _ & _ & ? & ?).
  - unfold ai2. rewrite run_app.
    by destruct (grows_run ai1 obs2) as (_ & _ & _ & ? & ?).
  - intros M Hobs.
    pose proof (sound_run M _ obs1 Hobs (sound_init M h w)) as Hs.
    split; [by eapply sound_disjoint|].
    by destruct Hs as (_ & ? & ? & _).
Qed.

(** Two truthful observations on a 1×3 board whose only mine is
    [(0,1)]: both end cells report one neighbouring mine. *)
Lemma safes_mines_grow_and_stay_disjoint_witness :
  let ai := run (MinesweeperAI.init 1 3) [((0, 0), 1); ((0, 2), 1)] in
  MinesweeperAI.safes ai ## MinesweeperAI.mines ai
  ∧ MinesweeperAI.safes ai ## {[ (0, 1) ]}
  ∧ MinesweeperAI.mines ai ⊆ {[ (0, 1) ]}.
Proof.
  intros ai.
  destruct (safes_mines_grow_and_stay_disjoint
              1 3 [((0, 0), 1); ((0, 2), 1)] []) as (_ & _ & _ & H).
  apply (H {[ (0, 1) ]}).
  repeat constructor; vm_compute; congruence.
Defined.

(** C3, as stated, fails: on a 1×3 board, observing [(0,0)] with count 1
    makes [(0,1)] a known mine, and observing [(0,2)] with count 0 then
    makes [(0,1)] a known safe; the two sets overlap. *)
Lemma safes_mines_overlap_counterexample :
  let ai := run (MinesweeperAI.init 1 3) [((0, 0), 1); ((0, 2), 0)] in
  ((0, 1) ∈ MinesweeperAI.safes ai)
  ∧ ((0, 1) ∈ MinesweeperAI.mines ai)
  ∧ ¬ (MinesweeperAI.safes ai ## MinesweeperAI.mines ai).
Proof.
  intros ai.
  assert ((0, 1) ∈ MinesweeperAI.safes ai) as Hs
    by by_evaluation.
  assert ((0, 1) ∈ MinesweeperAI.mines ai) as Hm
    by by_evaluation.
  split; [done|]. split; [done|]. set_solver.
Qed.

(** * Further properties: marking *)

Section marking_algebra.
Import MinesweeperAI.
Implicit Types (ai : MinesweeperAI.t) (s : Sentence.t) (a b c : cell).
Implicit Types (l : list cell).

Lemma sentence_eq s s' :
  Sentence.cells s = Sentence.cells s' → Sentence.count s = Sentence.count s' →
  s = s'.
Proof. destruct s, s'. cbn. by intros -> ->. Qed.

Lemma count_mark_mine s c :
  Sentence.count (Sentence.mark_mine s c)
  = Sentence.count s - (if decide (c ∈ Sentence.cells s) then 1 else 0).
Proof. unfold Sentence.mark_mine. case_decide; cbn; lia. Qed.

Lemma sentence_mark_safe_comm s a b :
  Sentence.mark_safe (Sentence.mark_safe s a) b
  = Sentence.mark_safe (Sentence.mark_safe s b) a.
Proof.
  apply sentence_eq.
  - rewrite !cells_mark_safe. set_solver.
  - by rewrite !count_mark_safe.
Qed.

Lemma sentence_mark_mine_comm s a b :
  Sentence.mark_mine (Sentence.mark_mine s a) b
  = Sentence.mark_mine (Sentence.mark_mine s b) a.
Proof.
  destruct (decide (a = b)) as [->|Hab]; [done|].
  apply sentence_eq.
  - rewrite !cells_mark_mine. set_solver.
  - rewrite !count_mark_mine, !cells_mark_mine.
    repeat case_decide; first [lia | set_solver].
Qed.

Lemma sentence_mark_safe_mine_comm s a b :
  a ≠ b →
  Sentence.mark_safe (Sentence.mark_mine s a) b
  = Sentence.mark_mine (Sentence.mark_safe s b) a.
Proof.
  intros Hab. apply sentence_eq.
  - rewrite cells_mark_safe, !cells_mark_mine, cells_mark_safe. set_solver.
  - rewrite count_mark_safe, !count_mark_mine, count_mark_safe,
      cells_mark_safe.
    repeat case_decide; first [lia | set_solver].
Qed.

Lemma engine_eq ai ai' :
  height ai = height ai' → width ai = width ai' →
  moves_made ai = moves_made ai' → mines ai = mines ai' →
  safes ai = safes ai' → knowledge ai = knowledge ai' → ai = ai'.
Proof. destruct ai, ai'. cbn. by intros -> -> -> -> -> ->. Qed.

Lemma mark_safe_comm ai a b :
  mark_safe (mark_safe ai a) b = mark_safe (mark_safe ai b) a.
Proof.
  apply engine_eq; cbn [mark_safe height width moves_made mines safes knowledge];
    try done.
  - set_solver.
  - rewrite <- !list_fmap_compose. apply list_fmap_ext.
    intros i s _. apply sentence_mark_safe_comm.
Qed.

Lemma mark_mine_comm ai a b :
  mark_mine (mark_mine ai a) b = mark_mine (mark_mine ai b) a.
Proof.
  apply engine_eq; cbn [mark_mine height width moves_made mines safes knowledge];
    try done.
  - set_solver.
  - rewrite <- !list_fmap_compose. apply list_fmap_ext.
    intros i s _. apply sentence_mark_mine_comm.
Qed.

Lemma mark_safe_mine_comm ai a b :
  a ≠ b → mark_safe (mark_mine ai a) b = mark_mine (mark_safe ai b) a.
Proof.
  intros Hab.
  apply engine_eq;
    cbn [mark_safe mark_mine height width moves_made mines safes knowledge];
    try done.
  rewrite <- !list_fmap_compose. apply list_fmap_ext.
  intros i s _. by apply sentence_mark_safe_mine_comm.
Qed.

Lemma foldl_permutation_comm {A B : Type} (f : B → A → B) (l1 l2 : list A) :
  (∀ (acc : B) x y, f (f acc x) y = f (f acc y) x) →
  l1 ≡ₚ l2 → ∀ acc : B, foldl f acc l1 = foldl f acc l2.
Proof.
  intros Hf Hp. induction Hp as [|x l1 l2 _ IH|x y l|l1 l2 l3 _ IH1 _ IH2];
    intros acc; cbn [foldl].
  - done.
  - apply IH.
  - by rewrite Hf.
  - by rewrite IH1.
Qed.

Lemma mark_safe_twice ai c : mark_safe (mark_safe ai c) c = mark_safe ai c.
Proof.
  apply engine_eq; cbn [mark_safe height width moves_made mines safes knowledge];
    try done.
  - set_solver.
  - rewrite <- list_fmap_compose. apply list_fmap_ext.
    intros i s _. apply sentence_mark_safe_twice.
Qed.

End marking_algebra.

(** X1. Calling the engine's [mark_safe] twice on the same cell leaves
    the engine exactly as one call leaves it, and the call only touches
    [safes] and the sentences: [height], [width], [moves_made] and
    [mines] stay, the cell is in [safes], and no sentence mentions it
    any more while every count stays. *)
Theorem mark_safe_idempotent (ai : MinesweeperAI.t) (c : cell) :
  MinesweeperAI.mark_safe (MinesweeperAI.mark_safe ai c) c
    = MinesweeperAI.mark_safe ai c
  ∧ c ∈ MinesweeperAI.safes (MinesweeperAI.mark_safe ai c)
  ∧ MinesweeperAI.mines (MinesweeperAI.mark_safe ai c) = MinesweeperAI.mines ai
  ∧ MinesweeperAI.moves_made (MinesweeperAI.mark_safe ai c)
    = MinesweeperAI.moves_made ai
  ∧ Forall2 (λ s' s, Sentence.cells s' = Sentence.cells s ∖ {[c]}
                     ∧ Sentence.count s' = Sentence.count s)
      (MinesweeperAI.knowledge (MinesweeperAI.mark_safe ai c))
      (MinesweeperAI.knowledge ai).
Proof.
  split; [apply mark_safe_twice|]. split; [cbn; set_solver|].
  split; [done|]. split; [done|].
  cbn [MinesweeperAI.mark_safe MinesweeperAI.knowledge].
  apply Forall2_fmap_l, Forall_Forall2_diag, Forall_forall.
  intros s _. unfold compose. by rewrite cells_mark_safe, count_mark_safe.
Qed.

(** X2. The order in which cells are marked does not matter: two
    [mark_safe] calls commute, two [mark_mine] calls commute, a
    [mark_safe] and a [mark_mine] on different cells commute, and
    marking the cells of a list one after the other gives the same
    engine for every reordering of the list (so the loops over a Python
    set in [update_knowledge_base] do not depend on the set's order). *)
Theorem marking_order_irrelevant (ai : MinesweeperAI.t) :
  (∀ a b, MinesweeperAI.mark_safe (MinesweeperAI.mark_safe ai a) b
          = MinesweeperAI.mark_safe (MinesweeperAI.mark_safe ai b) a)
  ∧ (∀ a b, MinesweeperAI.mark_mine (MinesweeperAI.mark_mine ai a) b
            = MinesweeperAI.mark_mine (MinesweeperAI.mark_mine ai b) a)
  ∧ (∀ a b, a ≠ b →
        MinesweeperAI.mark_safe (MinesweeperAI.mark_mine ai a) b
        = MinesweeperAI.mark_mine (MinesweeperAI.mark_safe ai b) a)
  ∧ (∀ l1 l2 : list cell, l1 ≡ₚ l2 →
        foldl MinesweeperAI.mark_safe ai l1 = foldl MinesweeperAI.mark_safe ai l2
        ∧ foldl MinesweeperAI.mark_mine ai l1
          = foldl MinesweeperAI.mark_mine ai l2).
Proof.
  split; [apply mark_safe_comm|]. split; [apply mark_mine_comm|].
  split; [apply mark_safe_mine_comm|].
  intros l1 l2 Hp. split.
  - apply foldl_permutation_comm; [|done]. intros; apply mark_safe_comm.
  - apply foldl_permutation_comm; [|done]. intros; apply mark_mine_comm.
Qed.

Lemma marking_order_irrelevant_witness :
  MinesweeperAI.mark_safe (MinesweeperAI.mark_mine ai_subset_pair A0) B0
  = MinesweeperAI.mark_mine (MinesweeperAI.mark_safe ai_subset_pair B0) A0
  ∧ foldl MinesweeperAI.mark_mine ai_subset_pair [A0; B0; C0]
    = foldl MinesweeperAI.mark_mine ai_subset_pair [C0; A0; B0].
Proof.
  destruct (marking_order_irrelevant ai_subset_pair) as (_ & _ & Hsm & Hp).
  split.
  - apply Hsm. discriminate.
  - apply (Hp [A0; B0; C0] [C0; A0; B0]).
    apply (bool_decide_unpack _). vm_compute. exact I.
Defined.

(** * Further properties: the neighbourhood of a cell *)

Section neighbourhood.
Import MinesweeperAI.
Implicit Types (ai : MinesweeperAI.t) (c x : cell).

Lemma elem_of_candidates c x : x ∈ candidates c ↔ adjacent c x.
Proof.
  destruct c as [row col], x as [r k]. unfold candidates, adjacent.
  rewrite !elem_of_cons, elem_of_nil. cbn [fst snd]. split.
  - intros H. repeat destruct H as [H|H]; try done;
      injection H as -> ->; (split; [intros [=]|]; lia).
  - intros (Hne & Hr & Hk).
    assert (r = row - 1 ∨ r = row ∨ r = row + 1) as Hr' by lia.
    assert (k = col - 1 ∨ k = col ∨ k = col + 1) as Hk' by lia.
    destruct Hr' as [-> | [-> | ->]], Hk' as [-> | [-> | ->]];
      try done; tauto.
Qed.

Lemma NoDup_candidates c : NoDup (candidates c).
Proof.
  destruct c as [row col]. unfold candidates.
  repeat (apply NoDup_cons; split;
    [rewrite ?elem_of_cons, elem_of_nil;
     intros H; repeat destruct H as [H|H]; try done; injection H; lia|]).
  apply NoDup_nil_2.
Qed.

Lemma elem_of_find_cell_neighbors ai c x :
  x ∈ find_cell_neighbors ai c
  ↔ adjacent c x ∧ in_bounds ai x ∧ x ∉ moves_made ai.
Proof.
  unfold find_cell_neighbors.
  rewrite list_elem_of_filter, elem_of_candidates. tauto.
Qed.

Lemma NoDup_find_cell_neighbors ai c : NoDup (find_cell_neighbors ai c).
Proof. apply NoDup_filter, NoDup_candidates. Qed.

End neighbourhood.

(** X3. [find_cell_neighbors(cell)] lists, without repetition, exactly
    the cells that differ from [cell], lie within one row and one column
    of it, are on the board and have not been played; so it lists at
    most eight cells and never [cell] itself. *)
Theorem find_cell_neighbors_spec (ai : MinesweeperAI.t) (c : cell) :
  NoDup (MinesweeperAI.find_cell_neighbors ai c)
  ∧ (length (MinesweeperAI.find_cell_neighbors ai c) ≤ 8)%nat
  ∧ (c ∉ MinesweeperAI.find_cell_neighbors ai c)
  ∧ ∀ x, x ∈ MinesweeperAI.find_cell_neighbors ai c
         ↔ x ≠ c
           ∧ (-1 ≤ x.1 - c.1 ≤ 1 ∧ -1 ≤ x.2 - c.2 ≤ 1)
           ∧ (0 ≤ x.1 < MinesweeperAI.height ai
              ∧ 0 ≤ x.2 < MinesweeperAI.width ai)
           ∧ x ∉ MinesweeperAI.moves_made ai.
Proof.
  split; [apply NoDup_find_cell_neighbors|]. split; [|split].
  - unfold MinesweeperAI.find_cell_neighbors.
    etrans; [apply length_filter|]. by destruct c.
  - rewrite elem_of_find_cell_neighbors. unfold adjacent. tauto.
  - intros x. rewrite elem_of_find_cell_neighbors.
    unfold adjacent, MinesweeperAI.in_bounds. tauto.
Qed.

(** * Further properties: what the saturation loop reaches *)

Section saturated.
Import MinesweeperAI.
Implicit Types (ai : MinesweeperAI.t) (c : cell) (s : Sentence.t).
Implicit Types (l : list cell) (idx : list nat).

Lemma visit_none_known ai (i : nat) s ai' :
  knowledge ai !! i = Some s → visit (ai, false) i = (ai', false) →
  Sentence.known_safes s = ∅ ∧ Sentence.known_mines s = ∅.
Proof.
  unfold visit. intros ->.
  destruct (decide (Sentence.known_safes s ≠ ∅)) as [?|Hs];
    destruct (decide (Sentence.known_mines s ≠ ∅)) as [?|Hm];
    intros [= _]; try done.
  by split; apply dec_stable.
Qed.

Lemma visit_noop ai (ch : bool) (i : nat) :
  (∀ s, knowledge ai !! i = Some s →
        Sentence.known_safes s = ∅ ∧ Sentence.known_mines s = ∅) →
  visit (ai, ch) i = (ai, ch).
Proof.
  intros H. unfold visit. destruct (knowledge ai !! i) as [s|]; [|done].
  destruct (H s eq_refl) as [-> ->]. by rewrite !decide_False by (by intros ?).
Qed.

Lemma foldl_visit_each idx ai ai' (i : nat) :
  foldl visit (ai, false) idx = (ai', false) → i ∈ idx →
  visit (ai, false) i = (ai, false).
Proof.
  induction idx as [|j idx IH]; cbn [foldl]; intros Hf Hi;
    [by apply elem_of_nil in Hi|].
  destruct (visit (ai, false) j) as [ai1 ch1] eqn:Hv.
  pose proof (foldl_visit_unchanged _ _ _ _ Hf) as [-> ->].
  pose proof (visit_unchanged _ _ _ _ Hv) as [-> _].
  apply elem_of_cons in Hi as [->|Hi]; [done|]. by apply IH.
Qed.

Lemma foldl_visit_noop idx ai :
  (∀ s, s ∈ knowledge ai →
        Sentence.known_safes s = ∅ ∧ Sentence.known_mines s = ∅) →
  foldl visit (ai, false) idx = (ai, false).
Proof.
  intros H. induction idx as [|j idx IH]; cbn [foldl]; [done|].
  rewrite visit_noop; [done|].
  intros s Hs. apply H. by eapply list_elem_of_lookup_2.
Qed.

(** A pass changes nothing exactly when no sentence has known cells. *)
Lemma pass_fixed_iff ai :
  pass ai = (ai, false)
  ↔ ∀ s, s ∈ knowledge ai →
         Sentence.known_safes s = ∅ ∧ Sentence.known_mines s = ∅.
Proof.
  split.
  - unfold pass. intros Hp s [i Hi]%list_elem_of_lookup.
    apply (visit_none_known ai i s ai); [done|].
    eapply foldl_visit_each; [exact Hp|].
    apply elem_of_seq. apply lookup_lt_Some in Hi. lia.
  - apply foldl_visit_noop.
Qed.






(** The loop writes [safes], [mines] and the sentences only. *)
Lemma moves_made_foldl_mark_safe ai l :
  moves_made (foldl mark_safe ai l) = moves_made ai.
Proof.
  revert ai. induction l as [|c l IH]; intros ai; cbn [foldl]; [done|].
  by rewrite IH.
Qed.

Lemma moves_made_foldl_mark_mine ai l :
  moves_made (foldl mark_mine ai l) = moves_made ai.
Proof.
  revert ai. induction l as [|c l IH]; intros ai; cbn [foldl]; [done|].
  by rewrite IH.
Qed.

Lemma moves_made_visit ai (ch : bool) (i : nat) :
  moves_made (visit (ai, ch) i).1 = moves_made ai.
Proof.
  unfold visit. destruct (knowledge ai !! i) as [s|]; [|done].
  repeat case_decide; cbn [fst];
    by rewrite ?moves_made_foldl_mark_mine, ?moves_made_foldl_mark_safe.
Qed.

Lemma moves_made_foldl_visit idx ai (ch : bool) :
  moves_made (foldl visit (ai, ch) idx).1 = moves_made ai.
Proof.
  revert ai ch. induction idx as [|i idx IH]; intros ai ch; cbn [foldl];
    [done|].
  pose proof (moves_made_visit ai ch i) as Hv.
  destruct (visit (ai, ch) i) as [ai1 ch1]. by rewrite IH.
Qed.

Lemma moves_made_saturate (fuel : nat) ai ai' :
  saturate fuel ai = Some ai' → moves_made ai' = moves_made ai.
Proof.
  revert ai. induction fuel as [|fuel IH]; intros ai; [done|].
  cbn [saturate].
  pose proof (moves_made_foldl_visit (seq 0 (length (knowledge ai))) ai false)
    as Hp. fold (pass ai) in Hp.
  destruct (pass ai) as [ai1 [|]]; cbn [fst] in Hp.
  - intros Hs. by rewrite (IH _ Hs).
  - by intros [= <-].
Qed.

Lemma moves_made_update_knowledge_base ai :
  moves_made (update_knowledge_base ai) = moves_made ai.
Proof.
  destruct (saturate_total ai) as [ai' Hs].
  rewrite (update_knowledge_base_unfold _ _ Hs).
  by apply moves_made_saturate in Hs.
Qed.

(** *** Nothing is lost: dropped cells are recorded *)

Lemma drained_refl ai s : drained ai s s.
Proof. unfold drained. set_solver. Qed.

Lemma shrinks_refl ai : shrinks ai ai.
Proof.
  apply Forall_Forall2_diag, Forall_forall. intros s _. apply drained_refl.
Qed.

Lemma shrinks_trans ai1 ai2 ai3 :
  shrinks ai1 ai2 → shrinks ai2 ai3 →
  safes ai2 ⊆ safes ai3 → mines ai2 ⊆ mines ai3 →
  shrinks ai1 ai3.
Proof.
  unfold shrinks. intros H12 H23 Hsf Hmn.
  apply Forall2_same_length_lookup. split.
  - by rewrite (Forall2_length _ _ _ H12), (Forall2_length _ _ _ H23).
  - intros i s1 s3 H1 H3.
    destruct (Forall2_lookup_l _ _ _ _ _ H12 H1) as (s2 & H2 & [Ha Hb]).
    destruct (Forall2_lookup_lr _ _ _ _ _ _ H23 H2 H3) as [Hc Hd].
    unfold drained. set_solver.
Qed.

Lemma shrinks_mark_safe ai c : shrinks ai (mark_safe ai c).
Proof.
  unfold shrinks. cbn [mark_safe knowledge].
  apply Forall2_fmap_r, Forall_Forall2_diag, Forall_forall. intros s _.
  unfold compose, drained. rewrite cells_mark_safe. cbn [mark_safe safes mines].
  split; [set_solver|]. intros x Hx.
  destruct (decide (x = c)); set_solver.
Qed.

Lemma shrinks_mark_mine ai c : shrinks ai (mark_mine ai c).
Proof.
  unfold shrinks. cbn [mark_mine knowledge].
  apply Forall2_fmap_r, Forall_Forall2_diag, Forall_forall. intros s _.
  unfold compose, drained. rewrite cells_mark_mine. cbn [mark_mine safes mines].
  split; [set_solver|]. intros x Hx.
  destruct (decide (x = c)); set_solver.
Qed.

Lemma shrinks_foldl_mark_safe ai l : shrinks ai (foldl mark_safe ai l).
Proof.
  revert ai. induction l as [|c l IH]; intros ai; cbn [foldl];
    [apply shrinks_refl|].
  destruct (grows_foldl_mark_safe (mark_safe ai c) l) as (_ & _ & _ & ? & ?).
  by eapply shrinks_trans; [apply shrinks_mark_safe | apply IH | |].
Qed.

Lemma shrinks_foldl_mark_mine ai l : shrinks ai (foldl mark_mine ai l).
Proof.
  revert ai. induction l as [|c l IH]; intros ai; cbn [foldl];
    [apply shrinks_refl|].
  destruct (grows_foldl_mark_mine (mark_mine ai c) l) as (_ & _ & _ & ? & ?).
  by eapply shrinks_trans; [apply shrinks_mark_mine | apply IH | |].
Qed.

Lemma shrinks_visit ai (ch : bool) (i : nat) : shrinks ai (visit (ai, ch) i).1.
Proof.
  unfold visit. destruct (knowledge ai !! i) as [s|]; [|apply shrinks_refl].
  repeat case_decide; cbn [fst]; try apply shrinks_refl.
  - set (ai1 := foldl mark_safe ai (elements (Sentence.known_safes s))).
    destruct (grows_foldl_mark_mine ai1 (elements (Sentence.known_mines s)))
      as (_ & _ & _ & ? & ?).
    by eapply shrinks_trans;
      [apply shrinks_foldl_mark_safe | apply shrinks_foldl_mark_mine | |].
  - apply shrinks_foldl_mark_safe.
  - apply shrinks_foldl_mark_mine.
Qed.

Lemma shrinks_foldl_visit idx ai (ch : bool) :
  shrinks ai (foldl visit (ai, ch) idx).1.
Proof.
  revert ai ch. induction idx as [|i idx IH]; intros ai ch; cbn [foldl];
    [apply shrinks_refl|].
  pose proof (shrinks_visit ai ch i) as Hv.
  destruct (visit (ai, ch) i) as [ai1 ch1]. cbn [fst] in Hv.
  destruct (grows_foldl_visit idx ai1 ch1) as (_ & _ & _ & ? & ?).
  by eapply shrinks_trans; [exact Hv | apply IH | |].
Qed.

Lemma shrinks_saturate (fuel : nat) ai ai' :
  saturate fuel ai = Some ai' → shrinks ai ai'.
Proof.
  revert ai. induction fuel as [|fuel IH]; intros ai; [done|].
  cbn [saturate].
  pose proof (shrinks_foldl_visit (seq 0 (length (knowledge ai))) ai false)
    as Hp. fold (pass ai) in Hp.
  destruct (pass ai) as [ai1 [|]]; cbn [fst] in Hp.
  - intros Hs. destruct (grows_saturate _ _ _ Hs) as (_ & _ & _ & ? & ?).
    by eapply shrinks_trans; [exact Hp | apply IH | |].
  - by intros [= <-].
Qed.

End saturated.



(** X5. [update_knowledge_base] loses no cell: it changes neither the
    board nor [moves_made], it only adds to [safes] and [mines], and
    every cell of a sentence it was given is afterwards in [safes], in
    [mines], or still in a remaining sentence whose cells all come from
    the given one. *)
Theorem update_knowledge_base_keeps_cells (ai : MinesweeperAI.t) :
  let ai' := MinesweeperAI.update_knowledge_base ai in
  MinesweeperAI.height ai' = MinesweeperAI.height ai
  ∧ MinesweeperAI.width ai' = MinesweeperAI.width ai
  ∧ MinesweeperAI.moves_made ai' = MinesweeperAI.moves_made ai
  ∧ MinesweeperAI.safes ai ⊆ MinesweeperAI.safes ai'
  ∧ MinesweeperAI.mines ai ⊆ MinesweeperAI.mines ai'
  ∧ ∀ s c, s ∈ MinesweeperAI.knowledge ai → c ∈ Sentence.cells s →
      c ∈ MinesweeperAI.safes ai' ∨ c ∈ MinesweeperAI.mines ai'
      ∨ ∃ s', s' ∈ MinesweeperAI.knowledge ai'
              ∧ c ∈ Sentence.cells s'
              ∧ Sentence.cells s' ⊆ Sentence.cells s.
Proof.
  intros ai'.
  destruct (grows_update_knowledge_base ai) as (Hh & Hw & _ & Hsf & Hmn).
  fold ai' in Hh, Hw, Hsf, Hmn.
  split; [done|]. split; [done|].
  split; [apply moves_made_update_knowledge_base|].
  split; [done|]. split; [done|].
  intros s c [i Hi]%list_elem_of_lookup Hc.
  unfold ai'. destruct (saturate_total ai) as [ai1 Hs].
  rewrite (update_knowledge_base_unfold _ _ Hs).
  cbn [MinesweeperAI.prune MinesweeperAI.set_knowledge MinesweeperAI.knowledge
       MinesweeperAI.safes MinesweeperAI.mines].
  apply shrinks_saturate in Hs.
  destruct (Forall2_lookup_l _ _ _ _ _ Hs Hi) as (s1 & H1 & [Ha Hb]).
  destruct (decide (c ∈ MinesweeperAI.safes ai1)); [by left|].
  destruct (decide (c ∈ MinesweeperAI.mines ai1)); [by right; left|].
  right; right. exists s1.
  assert (c ∈ Sentence.cells s1) by set_solver.
  split; [|done]. apply list_elem_of_filter. split; [set_solver|].
  by eapply list_elem_of_lookup_2.
Qed.

Lemma update_knowledge_base_keeps_cells_witness :
  (0, 1) ∈ MinesweeperAI.mines (MinesweeperAI.update_knowledge_base ai_one_mine).
Proof.
  destruct (update_knowledge_base_keeps_cells ai_one_mine)
    as (_ & _ & _ & _ & _ & H).
  destruct (H (Sentence.Sentence {[ (0, 1) ]} 1) (0, 1))
    as [Hs|[Hm|(s' & Hs' & _)]].
  - apply (bool_decide_unpack _). vm_compute. exact I.
  - apply (bool_decide_unpack _). vm_compute. exact I.
  - exfalso. revert Hs. apply (bool_decide_unpack _). vm_compute. exact I.
  - exact Hm.
  - exfalso. revert Hs'. vm_compute. apply elem_of_nil.
Defined.

(** * Further properties: what every reachable engine satisfies *)

Section reachable.
Import MinesweeperAI.
Implicit Types (ai : MinesweeperAI.t) (c : cell) (s : Sentence.t).
Implicit Types (l : list cell) (idx : list nat).

Lemma known_safes_subseteq s : Sentence.known_safes s ⊆ Sentence.cells s.
Proof. unfold Sentence.known_safes. case_decide; set_solver. Qed.

Lemma known_mines_subseteq s : Sentence.known_mines s ⊆ Sentence.cells s.
Proof. unfold Sentence.known_mines. case_decide; set_solver. Qed.

Lemma kept_mark_safe ai c :
  c ∈ moves_made ai ∨ in_bounds ai c → kept ai → kept (mark_safe ai c).
Proof.
  intros Hc (Hmv & Hmn & Hsf & Hkb). unfold kept.
  cbn [mark_safe moves_made safes mines knowledge].
  split; [set_solver|]. split; [exact Hmn|]. split.
  - intros x [Hx| ->%elem_of_singleton]%elem_of_union; [by apply Hsf|done].
  - apply Forall_fmap. eapply Forall_impl; [exact Hkb|].
    intros s Hs x. unfold compose. rewrite cells_mark_safe.
    intros [Hx _]%elem_of_difference. by apply Hs.
Qed.

Lemma kept_mark_mine ai c : in_bounds ai c → kept ai → kept (mark_mine ai c).
Proof.
  intros Hc (Hmv & Hmn & Hsf & Hkb). unfold kept.
  cbn [mark_mine moves_made safes mines knowledge].
  split; [exact Hmv|]. split; [|split; [exact Hsf|]].
  - intros x [Hx| ->%elem_of_singleton]%elem_of_union; [by apply Hmn|done].
  - apply Forall_fmap. eapply Forall_impl; [exact Hkb|].
    intros s Hs x. unfold compose. rewrite cells_mark_mine.
    intros [Hx _]%elem_of_difference. by apply Hs.
Qed.

Lemma kept_foldl_mark_safe ai l :
  (∀ c, c ∈ l → in_bounds ai c) → kept ai → kept (foldl mark_safe ai l).
Proof.
  revert ai. induction l as [|c l IH]; intros ai Hl Hai; cbn [foldl];
    [done|].
  apply IH.
  - intros x Hx. apply (Hl x). set_solver.
  - apply kept_mark_safe; [|done]. right. apply Hl. set_solver.
Qed.

Lemma kept_foldl_mark_mine ai l :
  (∀ c, c ∈ l → in_bounds ai c) → kept ai → kept (foldl mark_mine ai l).
Proof.
  revert ai. induction l as [|c l IH]; intros ai Hl Hai; cbn [foldl];
    [done|].
  apply IH.
  - intros x Hx. apply (Hl x). set_solver.
  - apply kept_mark_mine; [|done]. apply Hl. set_solver.
Qed.

Lemma kept_visit ai (ch : bool) (i : nat) : kept ai → kept (visit (ai, ch) i).1.
Proof.
  intros Hai. unfold visit.
  destruct (knowledge ai !! i) as [s|] eqn:Hi; [|done].
  assert (open_cells ai s) as Hs.
  { destruct Hai as (_ & _ & _ & Hkb).
    by apply (Forall_lookup_1 _ _ _ _ Hkb Hi). }
  pose proof (known_safes_subseteq s) as Hsafe.
  pose proof (known_mines_subseteq s) as Hmine.
  set (ai1 := foldl mark_safe ai (elements (Sentence.known_safes s))).
  assert (kept ai1) as Hai1.
  { apply kept_foldl_mark_safe; [|done].
    intros c Hc%elem_of_elements. apply Hs. set_solver. }
  repeat case_decide; cbn [fst]; try done.
  - apply kept_foldl_mark_mine; [|done].
    intros c Hc%elem_of_elements.
    destruct (grows_foldl_mark_safe ai (elements (Sentence.known_safes s)))
      as (Hh & Hw & _).
    apply (in_bounds_board ai ai1 c Hh Hw). apply Hs. set_solver.
  - apply kept_foldl_mark_mine; [|done].
    intros c Hc%elem_of_elements. apply Hs. set_solver.
Qed.

Lemma kept_foldl_visit idx ai (ch : bool) :
  kept ai → kept (foldl visit (ai, ch) idx).1.
Proof.
  revert ai ch. induction idx as [|i idx IH]; intros ai ch Hai; cbn [foldl];
    [done|].
  pose proof (kept_visit ai ch i Hai) as Hv.
  destruct (visit (ai, ch) i) as [ai1 ch1]. by apply IH.
Qed.

Lemma kept_saturate (fuel : nat) ai ai' :
  saturate fuel ai = Some ai' → kept ai → kept ai'.
Proof.
  revert ai. induction fuel as [|fuel IH]; intros ai; [done|].
  cbn [saturate]. intros Hs Hai.
  pose proof (kept_foldl_visit (seq 0 (length (knowledge ai))) ai false Hai)
    as Hp.
  fold (pass ai) in Hp. destruct (pass ai) as [ai1 [|]].
  - by apply (IH ai1).
  - by injection Hs as <-.
Qed.

Lemma kept_update_knowledge_base ai : kept ai → kept (update_knowledge_base ai).
Proof.
  intros Hai. destruct (saturate_total ai) as [ai' Hs].
  rewrite (update_knowledge_base_unfold _ _ Hs).
  destruct (kept_saturate _ _ _ Hs Hai) as (Hmv & Hmn & Hsf & Hkb).
  split; [exact Hmv|]. split; [exact Hmn|]. split; [exact Hsf|].
  cbn [prune set_knowledge knowledge]. rewrite Forall_forall in *.
  intros s [_ Hs']%list_elem_of_filter. by apply Hkb.
Qed.

Lemma kept_infer_new_sentences ai : kept ai → kept (infer_new_sentences ai).
Proof.
  intros (Hmv & Hmn & Hsf & Hkb).
  split; [exact Hmv|]. split; [exact Hmn|]. split; [exact Hsf|].
  cbn [infer_new_sentences set_knowledge knowledge].
  apply Forall_app. split; [done|]. apply Forall_forall. intros s Hs.
  apply inferred_sentences_spec in Hs as (_ & s1 & s2 & H1 & H2 & _ & ->).
  rewrite Forall_forall in Hkb. intros x Hx.
  apply (Hkb s2 H2). unfold derived in Hx. cbn [Sentence.cells] in Hx.
  set_solver.
Qed.

Lemma kept_add_knowledge ai c (n : Z) : kept ai → kept (add_knowledge ai c n).
Proof.
  intros (Hmv & Hmn & Hsf & Hkb). unfold add_knowledge.
  apply kept_infer_new_sentences, kept_update_knowledge_base.
  set (ai0 := {| height := height ai; width := width ai;
                 moves_made := moves_made ai ∪ {[c]};
                 mines := mines ai; safes := safes ai;
                 knowledge := knowledge ai |}).
  unfold kept. cbn [set_knowledge mark_safe ai0 moves_made safes mines
                    knowledge].
  split; [set_solver|]. split; [exact Hmn|]. split.
  - intros x [Hx| ->%elem_of_singleton]%elem_of_union.
    + destruct (Hsf x Hx); [left; set_solver | by right].
    + left. set_solver.
  - apply Forall_app. split.
    + apply Forall_fmap. eapply Forall_impl; [exact Hkb|].
      intros s Hs x. unfold compose. rewrite cells_mark_safe.
      intros [Hx Hxc]%elem_of_difference. destruct (Hs x Hx) as [Hb Hm].
      split; [exact Hb|]. cbn [moves_made]. set_solver.
    + apply Forall_singleton. intros x. cbn [Sentence.cells].
      rewrite elem_of_list_to_set, elem_of_find_cell_neighbors.
      by intros (_ & Hb & Hm).
Qed.

Lemma kept_init (h w : Z) : kept (init h w).
Proof.
  unfold kept. cbn [init moves_made safes mines knowledge].
  split; [done|]. split; [set_solver|]. split; [set_solver|].
  apply Forall_nil_2.
Qed.

Lemma kept_run ai (obs : list (cell * Z)) : kept ai → kept (run ai obs).
Proof.
  revert ai. induction obs as [|[c n] obs IH]; intros ai Hai; [done|].
  cbn [run foldl]. apply IH. by apply kept_add_knowledge.
Qed.

Lemma moves_made_add_knowledge ai c (n : Z) :
  moves_made (add_knowledge ai c n) = moves_made ai ∪ {[c]}.
Proof.
  unfold add_knowledge, infer_new_sentences. cbn [set_knowledge moves_made].
  by rewrite moves_made_update_knowledge_base.
Qed.

Lemma moves_made_run ai (obs : list (cell * Z)) :
  moves_made (run ai obs) = moves_made ai ∪ list_to_set obs.*1.
Proof.
  revert ai. induction obs as [|[c n] obs IH]; intros ai.
  - cbn. set_solver.
  - cbn [run foldl]. fold (run (observe ai (c, n)) obs). rewrite IH.
    unfold observe. cbn [fst snd]. rewrite moves_made_add_knowledge.
    rewrite fmap_cons. cbn [fst list_to_set]. set_solver.
Qed.

End reachable.

(** X6. After any sequence of [add_knowledge] calls on a fresh engine:
    the board size is the one given to the constructor, [moves_made] is
    exactly the set of observed cells and is contained in [safes], every
    known mine is on the board, every safe cell is on the board or was
    observed, and every sentence only mentions board cells that were not
    observed. *)
Theorem reachable_engine_invariants (h w : Z) (obs : list (cell * Z)) :
  let ai := run (MinesweeperAI.init h w) obs in
  MinesweeperAI.height ai = h ∧ MinesweeperAI.width ai = w
  ∧ MinesweeperAI.moves_made ai = list_to_set obs.*1
  ∧ MinesweeperAI.moves_made ai ⊆ MinesweeperAI.safes ai
  ∧ (∀ c, c ∈ MinesweeperAI.mines ai → 0 ≤ c.1 < h ∧ 0 ≤ c.2 < w)
  ∧ (∀ c, c ∈ MinesweeperAI.safes ai →
       c ∈ MinesweeperAI.moves_made ai ∨ (0 ≤ c.1 < h ∧ 0 ≤ c.2 < w))
  ∧ (∀ s c, s ∈ MinesweeperAI.knowledge ai → c ∈ Sentence.cells s →
       (0 ≤ c.1 < h ∧ 0 ≤ c.2 < w) ∧ c ∉ MinesweeperAI.moves_made ai).
Proof.
  intros ai.
  destruct (grows_run (MinesweeperAI.init h w) obs) as (Hh & Hw & _).
  fold ai in Hh, Hw. cbn in Hh, Hw.
  destruct (kept_run (MinesweeperAI.init h w) obs (kept_init h w))
    as (Hmv & Hmn & Hsf & Hkb).
  fold ai in Hmv, Hmn, Hsf, Hkb. unfold MinesweeperAI.in_bounds in *.
  rewrite Hh, Hw in *.
  split; [done|]. split; [done|]. split.
  { unfold ai. rewrite moves_made_run. cbn. set_solver. }
  split; [done|]. split; [done|]. split; [done|].
  intros s c Hs Hc. rewrite Forall_forall in Hkb.
  destruct (Hkb s Hs c Hc) as [Hb Hm]. unfold MinesweeperAI.in_bounds in Hb.
  rewrite Hh, Hw in Hb. done.
Qed.

Lemma reachable_engine_invariants_witness :
  0 ≤ (0, 1).1 < 1 ∧ 0 ≤ (0, 1).2 < 3.
Proof.
  destruct (reachable_engine_invariants 1 3 [((0, 0), 1)])
    as (_ & _ & _ & _ & H & _).
  apply H. apply (bool_decide_unpack _). vm_compute. exact I.
Defined.

(** X7. After any sequence of [add_knowledge] calls on a fresh engine, a
    cell returned by [make_safe_move] is a cell of the board that was
    never observed. *)
Theorem make_safe_move_on_board
    (h w : Z) (obs : list (cell * Z)) (r : nat) (c : cell) :
  (MinesweeperAI.make_safe_move (run (MinesweeperAI.init h w) obs) r).1
    = Returned (Some c) →
  (0 ≤ c.1 < h ∧ 0 ≤ c.2 < w) ∧ c ∉ (obs.*1).
Proof.
  set (ai := run (MinesweeperAI.init h w) obs). intros Hmove.
  destruct (choose_move_spec (safe_candidates ai) r) as (v & Hv & _ & Hs).
  rewrite <- (make_safe_move_fst ai r) in Hv.
  rewrite Hmove in Hv. injection Hv as <-.
  specialize (Hs c eq_refl).
  apply elem_of_safe_candidates, elem_of_difference in Hs as [Hsafe Hnot].
  destruct (grows_run (MinesweeperAI.init h w) obs) as (Hh & Hw & _).
  fold ai in Hh, Hw. cbn in Hh, Hw.
  destruct (kept_run (MinesweeperAI.init h w) obs (kept_init h w))
    as (_ & _ & Hsf & _).
  fold ai in Hsf. split.
  - destruct (Hsf c Hsafe) as [?|Hb]; [done|].
    unfold MinesweeperAI.in_bounds in Hb. by rewrite Hh, Hw in Hb.
  - intros Hin. apply Hnot. unfold ai. rewrite moves_made_run.
    apply elem_of_union. right. by apply elem_of_list_to_set.
Qed.

Lemma make_safe_move_on_board_witness :
  (0 ≤ (0, 1).1 < 1 ∧ 0 ≤ (0, 1).2 < 2) ∧ (0, 1) ∉ ([((0, 0), 0)].*1).
Proof.
  apply (make_safe_move_on_board 1 2 [((0, 0), 0)] 0 (0, 1)).
  vm_compute. reflexivity.
Defined.

(** * Further properties: truthful play *)

(** X8. Each deduction rule keeps true sentences true. For a sentence
    that is true of a mine layout [M] (exactly [count] of its cells are
    in [M]): its count lies between 0 and the number of its cells, its
    known safes are no mines and its known mines are mines, marking a
    mine or a non-mine leaves it true, and so does subtracting a true
    sentence over a subset of its cells. *)
Theorem sentence_rules_sound (M : gset cell) (s : Sentence.t) :
  holds M s →
  0 ≤ Sentence.count s ≤ Z.of_nat (size (Sentence.cells s))
  ∧ Sentence.known_safes s ## M
  ∧ Sentence.known_mines s ⊆ M
  ∧ (∀ c, c ∈ M → holds M (Sentence.mark_mine s c))
  ∧ (∀ c, c ∉ M → holds M (Sentence.mark_safe s c))
  ∧ (∀ s1, holds M s1 → Sentence.cells s1 ⊆ Sentence.cells s →
       holds M (Sentence.Sentence (Sentence.cells s ∖ Sentence.cells s1)
                                  (Sentence.count s - Sentence.count s1))).
Proof.
  intros Hs. split; [|split; [|split; [|split; [|split]]]].
  - unfold holds in Hs. rewrite Hs.
    assert (Sentence.cells s ∩ M ⊆ Sentence.cells s) as Hsub by set_solver.
    apply subseteq_size in Hsub. lia.
  - by apply holds_known_safes.
  - by apply holds_known_mines.
  - intros c Hc. by apply holds_mark_mine.
  - intros c Hc. by apply holds_mark_safe.
  - intros s1 H1 Hsub. by apply (holds_derived M s1 s).
Qed.

Lemma sentence_rules_sound_witness :
  Sentence.known_mines (Sentence.Sentence {[A0; B0]} 2) ⊆ {[A0; B0; C0]}.
Proof.
  apply (sentence_rules_sound {[A0; B0; C0]} (Sentence.Sentence {[A0; B0]} 2)).
  vm_compute. reflexivity.
Defined.

(** X9. When every observation is truthful for one mine layout [M],
    then after the whole sequence every sentence of [knowledge] is true
    of [M], with a count between 0 and its number of cells, and a cell
    returned by [make_safe_move] is not a mine. *)
Theorem truthful_play_is_safe
    (h w : Z) (M : gset cell) (obs : list (cell * Z)) :
  Forall (truthful M (MinesweeperAI.init h w)) obs →
  let ai := run (MinesweeperAI.init h w) obs in
  (∀ s, s ∈ MinesweeperAI.knowledge ai →
     Sentence.count s = Z.of_nat (size (Sentence.cells s ∩ M))
     ∧ 0 ≤ Sentence.count s ≤ Z.of_nat (size (Sentence.cells s)))
  ∧ (∀ r c, (MinesweeperAI.make_safe_move ai r).1 = Returned (Some c) →
       c ∉ M).
Proof.
  intros Hobs ai.
  destruct (sound_run M _ obs Hobs (sound_init M h w))
    as (_ & Hsf & _ & Hkb).
  fold ai in Hsf, Hkb. split.
  - intros s Hs. rewrite Forall_forall in Hkb. specialize (Hkb s Hs).
    split; [exact Hkb|]. unfold holds in Hkb. rewrite Hkb.
    assert (Sentence.cells s ∩ M ⊆ Sentence.cells s) as Hsub by set_solver.
    apply subseteq_size in Hsub. lia.
  - intros r c Hmove.
    destruct (choose_move_spec (safe_candidates ai) r) as (v & Hv & _ & Hs).
    rewrite <- (make_safe_move_fst ai r) in Hv.
    rewrite Hmove in Hv. injection Hv as <-.
    specialize (Hs c eq_refl).
    apply elem_of_safe_candidates, elem_of_difference in Hs as [Hsafe _].
    set_solver.
Qed.

Lemma truthful_play_is_safe_witness :
  (0, 1) ∉ ({[ (0, 2) ]} : gset cell).
Proof.
  destruct (truthful_play_is_safe 1 3 {[ (0, 2) ]} [((0, 0), 0)])
    as [_ H].
  - repeat constructor; vm_compute; congruence.
  - apply (H 0%nat). vm_compute. reflexivity.
Defined.

(** * Further properties: list subscripts and the field *)

Section field.
Implicit Types (board : list (list bool)) (row : list bool) (c : cell).
Implicit Types (i j h w : Z).

Lemma getitem_nonneg {A : Type} (l : list A) i :
  0 ≤ i →
  getitem l i = match l !! Z.to_nat i with
                | Some x => Returned x
                | None => Raised_IndexError
                end.
Proof.
  intros Hi. unfold getitem.
  destruct (decide (i < 0)) as [?|_]; [lia|]. by rewrite decide_False by lia.
Qed.

Lemma getitem_negative {A : Type} (l : list A) i :
  i < 0 →
  getitem l i = if decide (0 ≤ i + Z.of_nat (length l))
                then getitem l (i + Z.of_nat (length l))
                else Raised_IndexError.
Proof.
  intros Hi. unfold getitem at 1.
  destruct (decide (i < 0)) as [_|?]; [|lia].
  destruct (decide (0 ≤ i + Z.of_nat (length l))).
  - rewrite decide_False by lia. by rewrite getitem_nonneg.
  - by rewrite decide_True by lia.
Qed.

Lemma getitem_beyond {A : Type} (l : list A) i :
  Z.of_nat (length l) ≤ i ∨ i < - Z.of_nat (length l) →
  getitem l i = Raised_IndexError.
Proof.
  intros [Hi|Hi].
  - rewrite getitem_nonneg by lia. by rewrite lookup_ge_None_2 by lia.
  - rewrite getitem_negative by lia. by rewrite decide_False by lia.
Qed.

Lemma getitem_within {A : Type} (l : list A) i :
  0 ≤ i < Z.of_nat (length l) →
  ∃ x, l !! Z.to_nat i = Some x ∧ getitem l i = Returned x.
Proof.
  intros Hi. destruct (lookup_lt_is_Some_2 l (Z.to_nat i)) as [x Hx]; [lia|].
  exists x. split; [done|]. rewrite getitem_nonneg by lia. by rewrite Hx.
Qed.

Lemma setitem_within {A : Type} (l : list A) i (x : A) :
  0 ≤ i < Z.of_nat (length l) →
  setitem l i x = Returned (<[Z.to_nat i := x]> l).
Proof.
  intros Hi. unfold setitem.
  destruct (decide (i < 0)) as [?|_]; [lia|]. by rewrite decide_True by lia.
Qed.

Lemma rectangular_row h w board (n : nat) row :
  rectangular h w board → board !! n = Some row → length row = Z.to_nat w.
Proof. intros [_ Hr] Hn. by apply (Forall_lookup_1 _ _ _ _ Hr Hn). Qed.

Lemma board_get_within h w board i j :
  rectangular h w board → 0 ≤ i < h → 0 ≤ j < w →
  ∃ v, entry board (i, j) = Some v
       ∧ Minesweeper.board_get board i j = Returned v.
Proof.
  intros Hrect Hi Hj. pose proof Hrect as [Hlen _].
  destruct (getitem_within board i) as (row & Hrow & Hget); [lia|].
  pose proof (rectangular_row _ _ _ _ _ Hrect Hrow) as Hw.
  destruct (getitem_within row j) as (v & Hv & Hget'); [lia|].
  exists v. unfold entry, Minesweeper.board_get. cbn [fst snd].
  rewrite Hrow, Hget. cbn. by rewrite Hv.
Qed.

Lemma board_set_within h w board i j (v : bool) :
  rectangular h w board → 0 ≤ i < h → 0 ≤ j < w →
  ∃ board', Minesweeper.board_set board i j v = Returned board'
    ∧ rectangular h w board'
    ∧ ∀ c, 0 ≤ c.1 → 0 ≤ c.2 →
        entry board' c = if decide (c = (i, j)) then Some v else entry board c.
Proof.
  intros Hrect Hi Hj. pose proof Hrect as [Hlen Hrows].
  destruct (getitem_within board i) as (row & Hrow & Hget); [lia|].
  pose proof (rectangular_row _ _ _ _ _ Hrect Hrow) as Hw.
  exists (<[Z.to_nat i := <[Z.to_nat j := v]> row]> board).
  split; [|split].
  - unfold Minesweeper.board_set. rewrite Hget.
    rewrite setitem_within by lia. by rewrite setitem_within by lia.
  - split; [by rewrite length_insert|].
    apply Forall_insert; [done|]. by rewrite length_insert.
  - intros [ci cj] Hci Hcj. cbn [fst snd] in *. unfold entry. cbn [fst snd].
    destruct (decide (Z.to_nat ci = Z.to_nat i)) as [Hii|Hii].
    + rewrite Hii, list_lookup_insert_eq by lia. cbn.
      destruct (decide (Z.to_nat cj = Z.to_nat j)) as [Hjj|Hjj].
      * rewrite Hjj, list_lookup_insert_eq by lia.
        rewrite decide_True; [done|]. f_equal; lia.
      * rewrite list_lookup_insert_ne by done.
        rewrite decide_False by (intros [= ]; lia). by rewrite Hrow.
    + rewrite list_lookup_insert_ne by done.
      by rewrite decide_False by (intros [= ]; lia).
Qed.

Lemma foldl_snoc_replicate {A B : Type} (x : A) (l : list B) (acc : list A) :
  foldl (λ acc _, acc ++ [x]) acc l = acc ++ replicate (length l) x.
Proof.
  revert acc. induction l as [|y l IH]; intros acc; cbn [foldl length replicate].
  - by rewrite app_nil_r.
  - rewrite IH. by rewrite <- app_assoc.
Qed.

Lemma empty_board_replicate h w :
  Minesweeper.empty_board h w
  = replicate (Z.to_nat h) (replicate (Z.to_nat w) false).
Proof.
  unfold Minesweeper.empty_board.
  rewrite !foldl_snoc_replicate, !length_seqZ. done.
Qed.

Lemma rectangular_empty_board h w :
  rectangular h w (Minesweeper.empty_board h w).
Proof.
  rewrite empty_board_replicate. split; [by rewrite length_replicate|].
  apply Forall_replicate. by rewrite length_replicate.
Qed.

Lemma marks_empty_board h w : marks (Minesweeper.empty_board h w) ∅.
Proof.
  rewrite empty_board_replicate. intros c. split; [set_solver|].
  intros (_ & _ & He). unfold entry in He.
  destruct (replicate (Z.to_nat h) (replicate (Z.to_nat w) false)
              !! Z.to_nat c.1) as [row|] eqn:Hrow; [|done].
  apply lookup_replicate in Hrow as [-> _]. cbn in He.
  by apply lookup_replicate in He as [? _].
Qed.

End field.

(** * Further properties: the constructor of the game *)

Section constructor.
Implicit Types (board : list (list bool)) (c : cell) (ms : gset cell).
Implicit Types (i j h w m : Z) (draws : list (nat * nat)).
Implicit Types (st : gset cell * list (list bool)).

Lemma randrange_Some n (r : nat) i : randrange n r = Some i → 0 ≤ i < n.
Proof.
  unfold randrange. case_decide; [|done]. intros [= <-].
  by apply Z.mod_pos_bound.
Qed.

Lemma randrange_None n (r : nat) : randrange n r = None ↔ n ≤ 0.
Proof. unfold randrange. case_decide; split; first [done | lia]. Qed.

Lemma marks_board_set board ms board' i j :
  marks board ms → 0 ≤ i → 0 ≤ j →
  (∀ c, 0 ≤ c.1 → 0 ≤ c.2 →
     entry board' c = if decide (c = (i, j)) then Some true else entry board c) →
  marks board' (ms ∪ {[(i, j)]}).
Proof.
  intros Hm Hi Hj He c. rewrite elem_of_union, elem_of_singleton, (Hm c).
  split.
  - intros [(H1 & H2 & H3)| ->].
    + split; [done|]. split; [done|]. rewrite He by done.
      by case_decide.
    + split; [done|]. split; [done|]. rewrite He by done.
      by rewrite decide_True.
  - intros (H1 & H2 & H3). rewrite He in H3 by done.
    destruct (decide (c = (i, j))); [by right | by left].
Qed.

(** The loop keeps the field rectangular and in step with the set of
    mines, and never indexes outside the field. *)
Lemma add_mines_spec h w m draws st :
  rectangular h w st.2 → marks st.2 st.1 →
  match Minesweeper.add_mines h w m draws st with
  | Minesweeper.Constructed st' =>
      rectangular h w st'.2 ∧ marks st'.2 st'.1 ∧ Z.of_nat (size st'.1) = m
  | Minesweeper.ValueError => h ≤ 0 ∨ w ≤ 0
  | Minesweeper.IndexError => False
  | Minesweeper.Running => True
  end.
Proof.
  revert st. induction draws as [|[ri rj] draws IH]; intros st Hrect Hmarks;
    cbn [Minesweeper.add_mines].
  - by case_decide as Hsz.
  - case_decide as Hsz; [|done].
    destruct (randrange h ri) as [i|] eqn:Hri;
      [|left; by apply randrange_None in Hri].
    destruct (randrange w rj) as [j|] eqn:Hrj;
      [|right; by apply randrange_None in Hrj].
    apply randrange_Some in Hri, Hrj.
    destruct (board_get_within h w st.2 i j Hrect Hri Hrj) as (v & Hv & ->).
    destruct v; [by apply IH|].
    destruct (board_set_within h w st.2 i j true Hrect Hri Hrj)
      as (board' & -> & Hrect' & He).
    apply IH; cbn [fst snd]; [done|].
    apply (marks_board_set st.2); [done|lia|lia|done].
Qed.

Lemma size_list_to_set_le (l : list cell) :
  (size (list_to_set l : gset cell) ≤ length l)%nat.
Proof.
  induction l as [|x l IH]; cbn [list_to_set length].
  - by rewrite size_empty.
  - rewrite size_union_alt, size_singleton.
    assert (list_to_set l ∖ {[x]} ⊆ (list_to_set l : gset cell)) as Hsub
      by set_solver.
    apply subseteq_size in Hsub. lia.
Qed.

(** A field of [h] rows and [w] columns has room for [h * w] mines. *)
Lemma marks_size h w board ms :
  rectangular h w board → marks board ms →
  (size ms ≤ Z.to_nat h * Z.to_nat w)%nat.
Proof.
  intros [Hlen Hrows] Hm.
  set (grid := list_prod (seq 0 (Z.to_nat h)) (seq 0 (Z.to_nat w))).
  set (cells := (λ p : nat * nat, (Z.of_nat p.1, Z.of_nat p.2)) <$> grid).
  assert (ms ⊆ list_to_set cells) as Hsub.
  { intros c Hc. apply Hm in Hc as (H1 & H2 & He).
    apply elem_of_list_to_set, list_elem_of_fmap.
    exists (Z.to_nat c.1, Z.to_nat c.2). split.
    - destruct c. cbn [fst snd] in *. f_equal; lia.
    - unfold entry in He.
      destruct (board !! Z.to_nat c.1) as [row|] eqn:Hrow; [|done].
      cbn in He. apply lookup_lt_Some in He.
      rewrite (Forall_lookup_1 _ _ _ _ Hrows Hrow) in He.
      apply lookup_lt_Some in Hrow. rewrite Hlen in Hrow.
      apply list_elem_of_In, in_prod; apply list_elem_of_In, elem_of_seq; lia. }
  apply subseteq_size in Hsub. etrans; [exact Hsub|].
  etrans; [apply size_list_to_set_le|].
  unfold cells, grid. by rewrite length_fmap, length_prod, !length_seq.
Qed.

End constructor.

(** X10. When the constructor of [Minesweeper] returns, the game is well
    formed: the field has [height] rows of [width] entries, [mines] is
    exactly the set of cells whose entry is [True], there are exactly
    [mines] of them (so the requested number is between 0 and
    [height * width]), and [mines_found] is empty. The constructor never
    raises [IndexError], and raises [ValueError] only for a height or
    width that is not positive. *)
Theorem minesweeper_init_spec
    (h w m : Z) (draws : list (nat * nat)) :
  match Minesweeper.init h w m draws with
  | Minesweeper.Constructed g =>
      Minesweeper.height g = h ∧ Minesweeper.width g = w
      ∧ well_formed g
      ∧ Z.of_nat (size (Minesweeper.mines g)) = m
      ∧ 0 ≤ m ≤ Z.max 0 h * Z.max 0 w
      ∧ Minesweeper.mines_found g = ∅
  | Minesweeper.ValueError => (h ≤ 0 ∨ w ≤ 0) ∧ m ≠ 0
  | Minesweeper.IndexError => False
  | Minesweeper.Running => True
  end.
Proof.
  unfold Minesweeper.init.
  pose proof (add_mines_spec h w m draws (∅, Minesweeper.empty_board h w)
                (rectangular_empty_board h w) (marks_empty_board h w)) as H.
  destruct (Minesweeper.add_mines h w m draws
              (∅, Minesweeper.empty_board h w)) as [st'| | |] eqn:Hrun;
    [| |done|done].
  - destruct H as (Hrect & Hmarks & Hsz). cbn.
    split; [done|]. split; [done|]. split; [done|]. split; [done|].
    split; [|done].
    pose proof (marks_size h w _ _ Hrect Hmarks). split; [lia|]. nia.
  - split; [done|]. intros ->. destruct draws as [|[ri rj] draws];
      cbn [Minesweeper.add_mines] in Hrun;
      by rewrite decide_False in Hrun by (cbn; rewrite size_empty; lia).
Qed.

(** X11. Edge cases of the constructor. Asked for no mine it returns
    the empty field whatever the size and the draws. Asked for some
    mines on a field without rows or without columns it raises
    [ValueError] at the first draw. Asked for a negative number of mines,
    or for more mines than the field has cells, it never returns. *)
Theorem minesweeper_init_edges
    (h w m : Z) (draws : list (nat * nat)) :
  Minesweeper.init h w 0 draws
    = Minesweeper.Constructed
        {| Minesweeper.height := h; Minesweeper.width := w;
           Minesweeper.mines := ∅;
           Minesweeper.board := replicate (Z.to_nat h)
                                  (replicate (Z.to_nat w) false);
           Minesweeper.mines_found := ∅ |}
  ∧ (m ≠ 0 → h ≤ 0 ∨ w ≤ 0 → draws ≠ [] →
       Minesweeper.init h w m draws = Minesweeper.ValueError)
  ∧ (m < 0 ∨ Z.max 0 h * Z.max 0 w < m →
       ∀ g, Minesweeper.init h w m draws ≠ Minesweeper.Constructed g).
Proof.
  split; [|split].
  - unfold Minesweeper.init. rewrite <- empty_board_replicate.
    destruct draws as [|[ri rj] draws]; cbn [Minesweeper.add_mines];
      by rewrite decide_False by (cbn; rewrite size_empty; lia).
  - intros Hm Hhw Hd. destruct draws as [|[ri rj] draws]; [done|].
    unfold Minesweeper.init. cbn [Minesweeper.add_mines].
    rewrite decide_True by (cbn; rewrite size_empty; lia).
    destruct (randrange h ri) as [i|] eqn:Hri; [|done].
    destruct (randrange w rj) as [j|] eqn:Hrj; [|done].
    apply randrange_Some in Hri, Hrj. lia.
  - intros Hm g Hg. unfold Minesweeper.init in Hg.
    pose proof (add_mines_spec h w m draws (∅, Minesweeper.empty_board h w)
                  (rectangular_empty_board h w) (marks_empty_board h w)) as H.
    destruct (Minesweeper.add_mines h w m draws
                (∅, Minesweeper.empty_board h w)) as [st'| | |]; try done.
    destruct H as (Hrect & Hmarks & Hsz).
    pose proof (marks_size h w _ _ Hrect Hmarks). nia.
Qed.

Lemma minesweeper_init_edges_witness :
  Minesweeper.init 0 3 1 [(0, 0)%nat] = Minesweeper.ValueError
  ∧ ∀ g, Minesweeper.init 1 1 2 [(0, 0)%nat; (0, 0)%nat]
         ≠ Minesweeper.Constructed g.
Proof.
  split.
  - destruct (minesweeper_init_edges 0 3 1 [(0, 0)%nat]) as (_ & H & _).
    apply H; [lia | lia | discriminate].
  - destruct (minesweeper_init_edges 1 1 2 [(0, 0)%nat; (0, 0)%nat])
      as (_ & _ & H).
    apply H. lia.
Defined.

(** * Further properties: asking the game *)

Section asking.
Implicit Types (g : Minesweeper.t) (c x : cell) (i j k : Z).

Lemma well_formed_on_board g c :
  well_formed g → c ∈ Minesweeper.mines g →
  0 ≤ c.1 < Minesweeper.height g ∧ 0 ≤ c.2 < Minesweeper.width g.
Proof.
  intros [[Hlen Hrows] Hm] Hc. apply Hm in Hc as (H1 & H2 & He).
  unfold entry in He.
  destruct (Minesweeper.board g !! Z.to_nat c.1) as [row|] eqn:Hrow; [|done].
  cbn in He. apply lookup_lt_Some in He.
  rewrite (Forall_lookup_1 _ _ _ _ Hrows Hrow) in He.
  apply lookup_lt_Some in Hrow. lia.
Qed.

Lemma is_mine_on_board g c :
  well_formed g →
  0 ≤ c.1 < Minesweeper.height g → 0 ≤ c.2 < Minesweeper.width g →
  Minesweeper.is_mine g c = Returned (bool_decide (c ∈ Minesweeper.mines g)).
Proof.
  intros [Hrect Hm] H1 H2. destruct c as [i j]. cbn [fst snd] in *.
  destruct (board_get_within _ _ _ i j Hrect H1 H2) as (v & Hv & Hget).
  unfold Minesweeper.is_mine. rewrite Hget. f_equal.
  destruct v.
  - rewrite bool_decide_eq_true_2; [done|]. apply Hm. cbn. split; [lia|].
    split; [lia|done].
  - rewrite bool_decide_eq_false_2; [done|].
    intros (_ & _ & He)%Hm. congruence.
Qed.

Lemma look_spec g c k x :
  well_formed g →
  Minesweeper.look g c (Returned k) x
  = Returned (k + if decide (counted g c x) then 1 else 0).
Proof.
  intros Hwf. unfold Minesweeper.look, counted.
  destruct (decide (x = c)) as [->|Hne].
  { rewrite decide_False by tauto. f_equal. lia. }
  case_decide as Hb.
  - destruct Hb as [H1 H2].
    pose proof (is_mine_on_board g x Hwf H1 H2) as Him.
    unfold Minesweeper.is_mine in Him. destruct x as [i j]. cbn [fst snd] in *.
    rewrite Him. case_bool_decide.
    + by rewrite decide_True.
    + rewrite decide_False by tauto. f_equal. lia.
  - rewrite decide_False by tauto. f_equal. lia.
Qed.

Lemma foldl_look g c k (l : list cell) :
  well_formed g →
  foldl (Minesweeper.look g c) (Returned k) l
  = Returned (k + Z.of_nat (length (filter (counted g c) l))).
Proof.
  intros Hwf. revert k. induction l as [|x l IH]; intros k; cbn [foldl].
  - cbn. f_equal. lia.
  - rewrite look_spec, IH by done. f_equal. rewrite filter_cons.
    case_decide; cbn [length]; lia.
Qed.

Lemma seqZ_3 k : seqZ k 3 = [k; k + 1; k + 2].
Proof.
  unfold seqZ. replace (Z.to_nat 3) with 3%nat by lia.
  cbn [seq fmap list_fmap].
  replace (Z.of_nat 0 + k) with k by lia.
  replace (Z.of_nat 1 + k) with (k + 1) by lia.
  by replace (Z.of_nat 2 + k) with (k + 2) by lia.
Qed.

Lemma nearby_mines_square g c :
  Minesweeper.nearby_mines g c
  = foldl (Minesweeper.look g c) (Returned 0) (square c).
Proof.
  destruct c as [row col]. unfold Minesweeper.nearby_mines, square.
  cbn [fst snd]. rewrite !seqZ_3. cbn [foldl].
  replace (row - 1 + 1) with row by lia.
  replace (row - 1 + 2) with (row + 1) by lia.
  replace (col - 1 + 1) with col by lia.
  replace (col - 1 + 2) with (col + 1) by lia.
  done.
Qed.

Lemma elem_of_square c x :
  x ∈ square c ↔ -1 ≤ x.1 - c.1 ≤ 1 ∧ -1 ≤ x.2 - c.2 ≤ 1.
Proof.
  destruct c as [row col], x as [r k]. unfold square.
  rewrite !elem_of_cons, elem_of_nil. cbn [fst snd]. split.
  - intros H. repeat destruct H as [H|H]; try done; injection H as -> ->; lia.
  - intros (Hr & Hk).
    assert (r = row - 1 ∨ r = row ∨ r = row + 1) as Hr' by lia.
    assert (k = col - 1 ∨ k = col ∨ k = col + 1) as Hk' by lia.
    destruct Hr' as [-> | [-> | ->]], Hk' as [-> | [-> | ->]]; tauto.
Qed.

Lemma NoDup_square c : NoDup (square c).
Proof.
  destruct c as [row col]. unfold square.
  repeat (apply NoDup_cons; split;
    [rewrite ?elem_of_cons, elem_of_nil;
     intros H; repeat destruct H as [H|H]; try done; injection H; lia|]).
  apply NoDup_nil_2.
Qed.

Lemma counted_set g c :
  well_formed g →
  (list_to_set (filter (counted g c) (square c)) : gset cell)
  = filter (adjacent c) (Minesweeper.mines g).
Proof.
  intros Hwf. apply set_eq. intros x.
  rewrite elem_of_list_to_set, list_elem_of_filter, elem_of_square,
    elem_of_filter.
  unfold counted, adjacent. split; [tauto|].
  intros [(? & ? & ?) Hx]. pose proof (well_formed_on_board g x Hwf Hx). tauto.
Qed.

Lemma nearby_mines_count g c :
  well_formed g →
  Minesweeper.nearby_mines g c
  = Returned (Z.of_nat (size (filter (adjacent c) (Minesweeper.mines g)))).
Proof.
  intros Hwf. rewrite nearby_mines_square, foldl_look by done.
  rewrite <- counted_set by done.
  rewrite size_list_to_set by apply NoDup_filter, NoDup_square.
  f_equal.
Qed.

Lemma adjacent_mines_le g c :
  (size (filter (adjacent c) (Minesweeper.mines g)) ≤ 8)%nat.
Proof.
  assert (filter (adjacent c) (Minesweeper.mines g)
          ⊆ list_to_set (MinesweeperAI.candidates c)) as Hsub.
  { intros x [Hx _]%elem_of_filter.
    by apply elem_of_list_to_set, elem_of_candidates. }
  apply subseteq_size in Hsub. etrans; [exact Hsub|].
  etrans; [apply size_list_to_set_le|]. by destruct c.
Qed.

(** What the game reports is truthful for its mines. *)
Lemma reported_truthful g (o : cell * Z) :
  well_formed g → reported g o →
  truthful (Minesweeper.mines g)
           (MinesweeperAI.init (Minesweeper.height g) (Minesweeper.width g)) o.
Proof.
  intros Hwf [Him Hnear]. split.
  - intros Hin. pose proof (well_formed_on_board g _ Hwf Hin) as [H1 H2].
    rewrite is_mine_on_board in Him by done.
    by rewrite bool_decide_eq_true_2 in Him.
  - rewrite nearby_mines_count in Hnear by done. injection Hnear as <-.
    do 2 f_equal. apply set_eq. intros x.
    unfold board_neighbors.
    rewrite elem_of_filter, elem_of_intersection, elem_of_list_to_set,
      list_elem_of_filter, elem_of_candidates.
    split; [|tauto]. intros [Ha Hx]. split; [|done]. split; [|done].
    apply (well_formed_on_board g x Hwf Hx).
Qed.

End asking.

Section placing.
Implicit Types (h w m : Z) (draws : list (nat * nat)).
Implicit Types (st : gset cell * list (list bool)).

Lemma randrange_small n (r : nat) :
  Z.of_nat r < n → randrange n r = Some (Z.of_nat r).
Proof.
  intros Hr. unfold randrange. rewrite decide_True by lia.
  by rewrite Z.mod_small by lia.
Qed.

#[local] Instance drawn_inj : Inj (=) (=) drawn.
Proof. intros [a b] [a' b'] [= ? ?]. f_equal; lia. Qed.

(** Draws that name distinct free cells of the field are all used, one
    mine each. *)
Lemma add_mines_distinct h w m draws st :
  rectangular h w st.2 → marks st.2 st.1 →
  NoDup draws →
  Forall (λ d, Z.of_nat d.1 < h ∧ Z.of_nat d.2 < w) draws →
  (∀ d, d ∈ draws → drawn d ∉ st.1) →
  Z.of_nat (size st.1) + Z.of_nat (length draws) = m →
  ∃ board,
    Minesweeper.add_mines h w m draws st
    = Minesweeper.Constructed (st.1 ∪ list_to_set (drawn <$> draws), board).
Proof.
  revert st. induction draws as [|[ri rj] draws IH];
    intros st Hrect Hmarks Hnd Hin Hfree Hm; cbn [Minesweeper.add_mines].
  - exists st.2. rewrite decide_False by (cbn in Hm; lia).
    destruct st as [ms board]. cbn. f_equal. f_equal. set_solver.
  - rewrite decide_True by (cbn [length] in Hm; lia).
    apply Forall_cons in Hin as [[Hri Hrj] Hin]. cbn [fst snd] in Hri, Hrj.
    apply NoDup_cons in Hnd as [Hnotin Hnd].
    rewrite !randrange_small by done.
    destruct (board_get_within h w st.2 (Z.of_nat ri) (Z.of_nat rj) Hrect)
      as (v & Hv & ->); [lia..|].
    assert (drawn (ri, rj) ∉ st.1) as Hfresh by (apply Hfree; set_solver).
    destruct v.
    { exfalso. apply Hfresh, Hmarks. cbn. split; [lia|]. split; [lia|done]. }
    destruct (board_set_within h w st.2 (Z.of_nat ri) (Z.of_nat rj) true Hrect)
      as (board' & -> & Hrect' & He); [lia..|].
    destruct (IH (st.1 ∪ {[(Z.of_nat ri, Z.of_nat rj)]}, board'))
      as [board'' Hrun]; cbn [fst snd]; try done.
    + apply (marks_board_set st.2); [done|lia|lia|done].
    + intros d Hd [Hd'| Hd'%elem_of_singleton]%elem_of_union.
      * apply (Hfree d); [set_solver|done].
      * apply Hnotin. by rewrite <- (inj drawn _ _ Hd').
    + rewrite size_union by (unfold drawn in Hfresh; set_solver).
      rewrite size_singleton. cbn [length] in Hm. lia.
    + exists board''. rewrite Hrun. f_equal. f_equal.
      rewrite fmap_cons. cbn [list_to_set]. unfold drawn at 2. cbn [fst snd].
      set_solver.
Qed.

End placing.

(** X12. When the generator's draws name pairwise different cells of the
    field and as many of them as mines were asked for, the constructor
    returns, and the mines of the new game are exactly the drawn
    cells. *)
Theorem minesweeper_init_places_draws
    (h w : Z) (draws : list (nat * nat)) :
  NoDup draws →
  Forall (λ d, Z.of_nat d.1 < h ∧ Z.of_nat d.2 < w) draws →
  ∃ g, Minesweeper.init h w (Z.of_nat (length draws)) draws
       = Minesweeper.Constructed g
       ∧ Minesweeper.mines g = list_to_set (drawn <$> draws)
       ∧ Minesweeper.height g = h ∧ Minesweeper.width g = w.
Proof.
  intros Hnd Hin.
  destruct (add_mines_distinct h w (Z.of_nat (length draws)) draws
              (∅, Minesweeper.empty_board h w)) as [board Hrun];
    cbn [fst snd]; try done.
  - apply rectangular_empty_board.
  - apply marks_empty_board.
  - unfold Minesweeper.init. rewrite Hrun. cbn [fst snd].
    eexists. split; [done|]. cbn. split; [set_solver|done].
Qed.

Lemma minesweeper_init_places_draws_witness :
  ∃ g, Minesweeper.init 3 3 2 [(0, 0)%nat; (1, 2)%nat]
       = Minesweeper.Constructed g
       ∧ Minesweeper.mines g = {[ (0, 0); (1, 2) ]}.
Proof.
  destruct (minesweeper_init_places_draws 3 3 [(0, 0)%nat; (1, 2)%nat])
    as (g & Hg & Hm & _).
  - apply (bool_decide_unpack _). vm_compute. exact I.
  - repeat constructor; cbn; lia.
  - exists g. split; [exact Hg|]. rewrite Hm. cbn. unfold drawn. cbn.
    set_solver.
Defined.

(** X13. On a well-formed game, [is_mine] tells for a cell of the field
    whether it is in [mines]. Python's negative subscripts make it
    answer for rows [-height .. -1] and columns [-width .. -1] as for
    the rows and columns counted from the end; any other row or column
    raises [IndexError]. *)
Theorem is_mine_spec (g : Minesweeper.t) (i j : Z) :
  well_formed g →
  let h := Minesweeper.height g in
  let w := Minesweeper.width g in
  (0 ≤ i < h → 0 ≤ j < w →
     Minesweeper.is_mine g (i, j)
     = Returned (bool_decide ((i, j) ∈ Minesweeper.mines g)))
  ∧ (- h ≤ i < 0 →
     Minesweeper.is_mine g (i, j) = Minesweeper.is_mine g (i + h, j))
  ∧ (0 ≤ i < h → - w ≤ j < 0 →
     Minesweeper.is_mine g (i, j) = Minesweeper.is_mine g (i, j + w))
  ∧ (h ≤ i ∨ i < - h → Minesweeper.is_mine g (i, j) = Raised_IndexError)
  ∧ (0 ≤ i < h → w ≤ j ∨ j < - w →
     Minesweeper.is_mine g (i, j) = Raised_IndexError).
Proof.
  intros Hwf h w. pose proof Hwf as [[Hlen Hrows] _].
  fold h in Hlen. fold w in Hrows.
  unfold Minesweeper.is_mine, Minesweeper.board_get.
  split; [|split; [|split; [|split]]].
  - intros Hi Hj. by apply (is_mine_on_board g (i, j)).
  - intros Hi. rewrite (getitem_negative _ i) by lia.
    rewrite decide_True by lia. by replace (Z.of_nat _) with h by lia.
  - intros Hi Hj.
    destruct (getitem_within (Minesweeper.board g) i) as (row & Hrow & ->);
      [lia|].
    pose proof (Forall_lookup_1 _ _ _ _ Hrows Hrow) as Hw. cbn beta in Hw.
    rewrite (getitem_negative _ j) by lia.
    rewrite decide_True by lia. by replace (Z.of_nat _) with w by lia.
  - intros Hi. by rewrite getitem_beyond by lia.
  - intros Hi Hj.
    destruct (getitem_within (Minesweeper.board g) i) as (row & Hrow & ->);
      [lia|].
    pose proof (Forall_lookup_1 _ _ _ _ Hrows Hrow) as Hw. cbn beta in Hw.
    by rewrite getitem_beyond by lia.
Qed.

Lemma well_formed_game_two_mines : well_formed game_two_mines.
Proof.
  split.
  - split; [done|]. by repeat constructor.
  - intros [i j]. unfold game_two_mines, entry. cbn.
    rewrite elem_of_union, !elem_of_singleton. split.
    + intros [[= -> ->]|[= -> ->]]; cbn; done.
    + intros (Hi & Hj & He).
      destruct (Z.to_nat i) as [|[|[|n]]] eqn:Ei; cbn in He; try done;
        destruct (Z.to_nat j) as [|[|[|n']]] eqn:Ej; cbn in He; try done.
      * left. f_equal; lia.
      * right. f_equal; lia.
Qed.

Lemma is_mine_spec_witness :
  Minesweeper.is_mine game_two_mines (-3, -3)
  = Minesweeper.is_mine game_two_mines (0, -3)
  ∧ Minesweeper.is_mine game_two_mines (3, 0) = Raised_IndexError.
Proof.
  split.
  - destruct (is_mine_spec game_two_mines (-3) (-3) well_formed_game_two_mines)
      as (_ & H & _).
    apply H. cbn. lia.
  - destruct (is_mine_spec game_two_mines 3 0 well_formed_game_two_mines)
      as (_ & _ & _ & H & _).
    apply H. cbn. lia.
Defined.

(** X14. On a well-formed game, [nearby_mines] never raises, for any
    cell, on or off the field: it returns the number of mines among the
    eight cells around the given cell, a number between 0 and 8 that
    does not count the cell itself. *)
Theorem nearby_mines_spec (g : Minesweeper.t) (c : cell) :
  well_formed g →
  ∃ n : nat,
    Minesweeper.nearby_mines g c = Returned (Z.of_nat n)
    ∧ n = size (filter (adjacent c) (Minesweeper.mines g))
    ∧ (n ≤ 8)%nat
    ∧ (n = 0%nat ↔ ∀ x, adjacent c x → x ∉ Minesweeper.mines g).
Proof.
  intros Hwf. exists (size (filter (adjacent c) (Minesweeper.mines g))).
  split; [by apply nearby_mines_count|]. split; [done|].
  split; [apply adjacent_mines_le|].
  rewrite size_empty_iff. split.
  - intros He x Hx Hin. apply (not_elem_of_empty (C:=gset cell) x).
    apply He. by apply elem_of_filter.
  - intros H. apply elem_of_equiv_empty. intros x [Hx Hin]%elem_of_filter.
    by apply (H x).
Qed.

Lemma nearby_mines_spec_witness :
  Minesweeper.nearby_mines game_two_mines (1, 1) = Returned 2.
Proof.
  destruct (nearby_mines_spec game_two_mines (1, 1) well_formed_game_two_mines)
    as (n & -> & -> & _).
  vm_compute. reflexivity.
Defined.

(** X15. The engine played against a well-formed game. When every
    observation is what the game reports for a revealed cell ([is_mine]
    says no, the count is [nearby_mines]), then every cell the engine
    holds for a mine is a cell of the field in the game's [mines], for
    which [is_mine] says yes; no cell it holds for safe is in the game's
    [mines]; and a cell returned by [make_safe_move] is a cell of the
    field, outside the game's [mines], for which [is_mine] says no, and
    was not revealed before. *)
Theorem play_against_the_game (g : Minesweeper.t) (obs : list (cell * Z)) :
  well_formed g →
  Forall (reported g) obs →
  let ai := run (MinesweeperAI.init (Minesweeper.height g)
                                    (Minesweeper.width g)) obs in
  (∀ c, c ∈ MinesweeperAI.mines ai →
     (0 ≤ c.1 < Minesweeper.height g ∧ 0 ≤ c.2 < Minesweeper.width g)
     ∧ c ∈ Minesweeper.mines g
     ∧ Minesweeper.is_mine g c = Returned true)
  ∧ (∀ c, c ∈ MinesweeperAI.safes ai → c ∉ Minesweeper.mines g)
  ∧ (∀ r c, (MinesweeperAI.make_safe_move ai r).1 = Returned (Some c) →
       (0 ≤ c.1 < Minesweeper.height g ∧ 0 ≤ c.2 < Minesweeper.width g)
       ∧ (c ∉ Minesweeper.mines g)
       ∧ Minesweeper.is_mine g c = Returned false
       ∧ c ∉ (obs.*1)).
Proof.
  intros Hwf Hobs ai.
  set (h := Minesweeper.height g) in *. set (w := Minesweeper.width g) in *.
  assert (Forall (truthful (Minesweeper.mines g) (MinesweeperAI.init h w)) obs)
    as Htrue.
  { eapply Forall_impl; [exact Hobs|]. intros o. by apply reported_truthful. }
  destruct (sound_run _ _ obs Htrue (sound_init _ h w)) as (_ & Hsf & Hmn & _).
  fold ai in Hsf, Hmn.
  destruct (grows_run (MinesweeperAI.init h w) obs) as (Hh & Hw & _).
  fold ai in Hh, Hw. cbn in Hh, Hw.
  destruct (kept_run (MinesweeperAI.init h w) obs (kept_init h w))
    as (_ & _ & Hkept & _).
  fold ai in Hkept.
  split; [|split].
  - intros c Hc. apply Hmn in Hc.
    pose proof (well_formed_on_board g c Hwf Hc) as [H1 H2].
    split; [done|]. split; [done|].
    rewrite is_mine_on_board by done. by rewrite bool_decide_eq_true_2.
  - intros c Hc. set_solver.
  - intros r c Hmove.
    destruct (choose_move_spec (safe_candidates ai) r) as (v & Hv & _ & Hs).
    rewrite <- (make_safe_move_fst ai r) in Hv.
    rewrite Hmove in Hv. injection Hv as <-.
    specialize (Hs c eq_refl).
    apply elem_of_safe_candidates, elem_of_difference in Hs as [Hsafe Hnot].
    assert (c ∉ Minesweeper.mines g) as Hno by set_solver.
    assert (0 ≤ c.1 < h ∧ 0 ≤ c.2 < w) as Hb.
    { destruct (Hkept c Hsafe) as [?|Hb]; [done|].
      unfold MinesweeperAI.in_bounds in Hb. by rewrite Hh, Hw in Hb. }
    split; [done|]. split; [done|]. split.
    + destruct Hb. rewrite is_mine_on_board by done.
      by rewrite bool_decide_eq_false_2.
    + intros Hin. apply Hnot. unfold ai. rewrite moves_made_run.
      apply elem_of_union. right. by apply elem_of_list_to_set.
Qed.

Lemma play_against_the_game_witness :
  (0 ≤ (1, 0).1 < 3 ∧ 0 ≤ (1, 0).2 < 3)
  ∧ ((1, 0) ∉ Minesweeper.mines game_two_mines)
  ∧ Minesweeper.is_mine game_two_mines (1, 0) = Returned false
  ∧ (1, 0) ∉ ([((2, 0), 0)].*1).
Proof.
  destruct (play_against_the_game game_two_mines [((2, 0), 0)])
    as (_ & _ & H).
  - apply well_formed_game_two_mines.
  - repeat constructor; vm_compute; reflexivity.
  - apply (H 0%nat). vm_compute. reflexivity.
Defined.

(** * Further properties: one observation *)

Section one_observation.
Import MinesweeperAI.
Implicit Types (ai : MinesweeperAI.t) (c x : cell) (s : Sentence.t).
Implicit Types (M : gset cell).

(** The engine on which [add_knowledge] calls [update_knowledge_base]. *)
Lemma add_knowledge_unfold ai c (n : Z) :
  let ai0 := {| height := height ai; width := width ai;
                moves_made := moves_made ai ∪ {[c]};
                mines := mines ai; safes := safes ai;
                knowledge := knowledge ai |} in
  let ai1 := mark_safe ai0 c in
  let new_sentence :=
    Sentence.Sentence (list_to_set (find_cell_neighbors ai1 c)) n in
  add_knowledge ai c n
  = infer_new_sentences
      (update_knowledge_base
         (set_knowledge ai1 (knowledge ai1 ++ [new_sentence]))).
Proof. done. Qed.

(** Every sentence left by [update_knowledge_base] comes from a given
    one by dropping cells. *)
Lemma update_knowledge_base_sources ai s' :
  s' ∈ knowledge (update_knowledge_base ai) →
  ∃ s, s ∈ knowledge ai ∧ Sentence.cells s' ⊆ Sentence.cells s.
Proof.
  destruct (saturate_total ai) as [ai1 Hs].
  rewrite (update_knowledge_base_unfold _ _ Hs).
  cbn [prune set_knowledge knowledge].
  intros [_ [i Hi]%list_elem_of_lookup]%list_elem_of_filter.
  apply shrinks_saturate in Hs.
  destruct (Forall2_lookup_r _ _ _ _ _ Hs Hi) as (s & Hsi & [Hsub _]).
  exists s. split; [by eapply list_elem_of_lookup_2 | done].
Qed.

Lemma infer_new_sentences_sources ai s' :
  s' ∈ knowledge (infer_new_sentences ai) →
  ∃ s, s ∈ knowledge ai ∧ Sentence.cells s' ⊆ Sentence.cells s.
Proof.
  cbn [infer_new_sentences set_knowledge knowledge].
  intros [Hs|Hs]%elem_of_app; [by exists s'|].
  apply inferred_sentences_spec in Hs as (_ & s1 & s2 & _ & H2 & _ & ->).
  exists s2. split; [done|]. unfold derived. cbn [Sentence.cells]. set_solver.
Qed.

Lemma filter_ext_in {A : Type} (P Q : A → Prop)
    `{!∀ a, Decision (P a), !∀ a, Decision (Q a)} (xs : list A) :
  (∀ a : A, a ∈ xs → P a ↔ Q a) → filter P xs = filter Q xs.
Proof.
  induction xs as [|a xs IH]; intros Hext; [done|].
  rewrite !filter_cons, IH by (intros y Hy; apply Hext; set_solver).
  destruct (decide (P a)) as [HP|HP].
  - rewrite decide_True; [done|]. apply Hext; [set_solver|done].
  - rewrite decide_False; [done|]. intros HQ. apply HP, Hext; [set_solver|done].
Qed.

(** Saturation is complete on a sound engine: what a sentence yields
    before the loop is recorded after it. *)
Lemma update_knowledge_base_complete M ai s :
  sound M ai → s ∈ knowledge ai →
  Sentence.known_safes s ⊆ safes (update_knowledge_base ai)
  ∧ Sentence.known_mines s ⊆ mines (update_knowledge_base ai).
Proof.
  intros Hai [i Hi]%list_elem_of_lookup.
  assert (holds M s) as Hs.
  { destruct Hai as (_ & _ & _ & Hkb). by apply (Forall_lookup_1 _ _ _ _ Hkb Hi). }
  destruct (saturate_total ai) as [ai1 Hsat].
  rewrite (update_knowledge_base_unfold _ _ Hsat).
  cbn [prune set_knowledge safes mines].
  pose proof (sound_saturate M _ _ _ Hsat Hai) as (_ & Hsf1 & Hmn1 & Hkb1).
  pose proof (saturate_fixed _ _ _ Hsat) as Hfix.
  apply shrinks_saturate in Hsat.
  destruct (Forall2_lookup_l _ _ _ _ _ Hsat Hi) as (s1 & Hi1 & [Hsub Hdrain]).
  assert (holds M s1) as Hs1 by by apply (Forall_lookup_1 _ _ _ _ Hkb1 Hi1).
  destruct (proj1 (pass_fixed_iff ai1) Hfix s1) as [Hks1 Hkm1];
    [by eapply list_elem_of_lookup_2|].
  unfold holds in Hs, Hs1. split.
  - destruct (known_safes_cases s) as [->|[-> H0]]; [set_solver|].
    assert (Sentence.cells s ∩ M = ∅) as Hno.
    { apply leibniz_equiv, size_empty_inv. lia. }
    assert (Sentence.cells s1 = ∅) as He.
    { rewrite <- Hks1. unfold Sentence.known_safes.
      rewrite decide_True; [done|]. rewrite Hs1.
      replace (Sentence.cells s1 ∩ M) with (∅ : gset cell) by set_solver.
      by rewrite size_empty. }
    set_solver.
  - destruct (known_mines_cases s) as [->|[-> Hn]]; [set_solver|].
    assert (Sentence.cells s ∩ M = Sentence.cells s) as Hall.
    { apply set_subseteq_size_eq; [set_solver | lia]. }
    assert (Sentence.cells s1 = ∅) as He.
    { rewrite <- Hkm1. unfold Sentence.known_mines, Sentence.len.
      rewrite decide_True; [done|]. rewrite Hs1.
      by replace (Sentence.cells s1 ∩ M) with (Sentence.cells s1)
        by set_solver. }
    set_solver.
Qed.

(** The engine is sound when [add_knowledge] starts its saturation. *)
Lemma sound_before_update M ai c (n : Z) :
  truthful M ai (c, n) → sound M ai →
  let ai1 := mark_safe {| height := height ai; width := width ai;
                          moves_made := moves_made ai ∪ {[c]};
                          mines := mines ai; safes := safes ai;
                          knowledge := knowledge ai |} c in
  sound M (set_knowledge ai1
             (knowledge ai1
              ++ [Sentence.Sentence (list_to_set (find_cell_neighbors ai1 c)) n])).
Proof.
  intros Ht Hai. pose proof Ht as [Hc _]. cbn [fst] in Hc.
  destruct Hai as (Hmv & Hsf & Hmn & Hkb).
  set (ai0 := {| height := height ai; width := width ai;
                 moves_made := moves_made ai ∪ {[c]};
                 mines := mines ai; safes := safes ai;
                 knowledge := knowledge ai |}).
  intros ai1.
  assert (sound M ai1) as (Hmv1 & Hsf1 & Hmn1 & Hkb1).
  { apply sound_mark_safe; [done|].
    repeat split; cbn [ai0 moves_made safes mines knowledge];
      [set_solver|done..]. }
  repeat split; try done.
  cbn [set_knowledge knowledge]. apply Forall_app. split; [done|].
  apply Forall_singleton. apply holds_new_sentence; [done|].
  destruct Ht as [? Hn]. split; [done|]. cbn [fst snd] in *.
  by rewrite (board_neighbors_board ai ai1 c).
Qed.

End one_observation.

(** X16. [add_knowledge(cell, count)] records the move: [moves_made]
    gains exactly [cell], [cell] is in [safes], the board size stays,
    no sentence of [knowledge] mentions [cell] afterwards, and
    [make_safe_move] does not return it. *)
Theorem add_knowledge_records_move
    (ai : MinesweeperAI.t) (c : cell) (n : Z) :
  let ai' := MinesweeperAI.add_knowledge ai c n in
  MinesweeperAI.moves_made ai' = MinesweeperAI.moves_made ai ∪ {[c]}
  ∧ c ∈ MinesweeperAI.safes ai'
  ∧ MinesweeperAI.height ai' = MinesweeperAI.height ai
  ∧ MinesweeperAI.width ai' = MinesweeperAI.width ai
  ∧ (∀ s, s ∈ MinesweeperAI.knowledge ai' → c ∉ Sentence.cells s)
  ∧ (∀ r, (MinesweeperAI.make_safe_move ai' r).1 ≠ Returned (Some c)).
Proof.
  intros ai'.
  assert (MinesweeperAI.moves_made ai' = MinesweeperAI.moves_made ai ∪ {[c]})
    as Hmv by apply moves_made_add_knowledge.
  destruct (grows_add_knowledge ai c n) as (Hh & Hw & _ & Hsf & _).
  fold ai' in Hh, Hw, Hsf.
  split; [done|]. split; [|split; [done|split; [done|split]]].
  - unfold ai'. rewrite add_knowledge_unfold. cbn zeta.
    match goal with
    | |- _ ∈ MinesweeperAI.safes (MinesweeperAI.infer_new_sentences
                                    (MinesweeperAI.update_knowledge_base ?a)) =>
        destruct (grows_update_knowledge_base a) as (_ & _ & _ & H & _)
    end.
    cbn [MinesweeperAI.infer_new_sentences MinesweeperAI.set_knowledge
         MinesweeperAI.safes]. apply H. cbn. set_solver.
  - intros s Hs Hc. unfold ai' in Hs. rewrite add_knowledge_unfold in Hs.
    cbn zeta in Hs.
    apply infer_new_sentences_sources in Hs as (s2 & Hs2 & Hsub2).
    apply update_knowledge_base_sources in Hs2 as (s3 & Hs3 & Hsub3).
    cbn [MinesweeperAI.set_knowledge MinesweeperAI.mark_safe
         MinesweeperAI.knowledge] in Hs3.
    apply elem_of_app in Hs3 as [Hs3|Hs3%list_elem_of_singleton].
    + apply list_elem_of_fmap in Hs3 as (s4 & -> & _).
      rewrite cells_mark_safe in Hsub3. set_solver.
    + subst s3. cbn [Sentence.cells] in Hsub3.
      pose proof (Hsub3 c (Hsub2 c Hc)) as Hin.
      apply elem_of_list_to_set in Hin.
      apply elem_of_find_cell_neighbors in Hin as ([? _] & _). done.
  - intros r Hmove.
    destruct (choose_move_spec (safe_candidates ai') r) as (v & Hv & _ & Hs).
    rewrite <- (make_safe_move_fst ai' r) in Hv.
    rewrite Hmove in Hv. injection Hv as <-.
    specialize (Hs c eq_refl).
    apply elem_of_safe_candidates, elem_of_difference in Hs as [_ Hnot].
    apply Hnot. rewrite Hmv. set_solver.
Qed.

Lemma add_knowledge_records_move_witness :
  (1, 1) ∉ Sentence.cells
             (Sentence.Sentence
                {[ (0, 0); (0, 1); (0, 2); (1, 0); (1, 2); (2, 0); (2, 1); (2, 2) ]}
                1).
Proof.
  destruct (add_knowledge_records_move (MinesweeperAI.init 3 3) (1, 1) 1)
    as (_ & _ & _ & _ & H & _).
  apply H. apply (bool_decide_unpack _). vm_compute. exact I.
Defined.

(** X17. On an engine whose knowledge is true of a mine layout [M],
    [update_knowledge_base] draws every immediate conclusion: the cells
    of every sentence with count 0 end up in [safes], and the cells of
    every sentence whose count is its number of cells end up in
    [mines]. *)
Theorem update_knowledge_base_draws_conclusions
    (M : gset cell) (ai : MinesweeperAI.t) (s : Sentence.t) :
  sound M ai → s ∈ MinesweeperAI.knowledge ai →
  (Sentence.count s = 0 →
     Sentence.cells s
     ⊆ MinesweeperAI.safes (MinesweeperAI.update_knowledge_base ai))
  ∧ (Sentence.count s = Z.of_nat (size (Sentence.cells s)) →
     Sentence.cells s
     ⊆ MinesweeperAI.mines (MinesweeperAI.update_knowledge_base ai)).
Proof.
  intros Hai Hs.
  destruct (update_knowledge_base_complete M ai s Hai Hs) as [Hsafe Hmine].
  split; intros Hc.
  - unfold Sentence.known_safes in Hsafe. by rewrite decide_True in Hsafe.
  - unfold Sentence.known_mines, Sentence.len in Hmine.
    by rewrite decide_True in Hmine.
Qed.

Lemma update_knowledge_base_draws_conclusions_witness :
  {[ (0, 1) ]}
  ⊆ MinesweeperAI.mines (MinesweeperAI.update_knowledge_base ai_one_mine).
Proof.
  destruct (update_knowledge_base_draws_conclusions
              {[ (0, 1) ]} ai_one_mine (Sentence.Sentence {[ (0, 1) ]} 1))
    as [_ H].
  - split; [set_solver|]. split; [set_solver|]. split; [set_solver|].
    repeat constructor.
  - apply list_elem_of_singleton. reflexivity.
  - apply H. reflexivity.
Defined.

(** X18. After truthful observations, one more truthful observation
    with count 0 makes every board cell around the observed cell that
    was not played safe; with a count equal to the number of such cells
    it makes every one of them a known mine. *)
Theorem add_knowledge_extreme_counts
    (h w : Z) (M : gset cell) (obs : list (cell * Z)) (c : cell) (n : Z) :
  Forall (truthful M (MinesweeperAI.init h w)) obs →
  truthful M (MinesweeperAI.init h w) (c, n) →
  let ai := run (MinesweeperAI.init h w) obs in
  let around :=
    filter (λ x, (x ∉ MinesweeperAI.moves_made ai)
                 ∧ (0 ≤ x.1 < h ∧ 0 ≤ x.2 < w))
           (MinesweeperAI.candidates c) in
  (n = 0 →
     ∀ x, x ∈ around → x ∈ MinesweeperAI.safes (MinesweeperAI.add_knowledge ai c n))
  ∧ (n = Z.of_nat (length around) →
     ∀ x, x ∈ around → x ∈ MinesweeperAI.mines (MinesweeperAI.add_knowledge ai c n)).
Proof.
  intros Hobs Ht ai around.
  pose proof (sound_run M _ obs Hobs (sound_init M h w)) as Hai. fold ai in Hai.
  destruct (grows_run (MinesweeperAI.init h w) obs) as (Hh & Hw & _).
  fold ai in Hh, Hw. cbn in Hh, Hw.
  assert (truthful M ai (c, n)) as Ht' by by apply (truthful_board M _ ai) in Ht.
  pose proof (sound_before_update M ai c n Ht' Hai) as Hbefore.
  cbn zeta in Hbefore.
  set (ai1 := MinesweeperAI.mark_safe
                {| MinesweeperAI.height := MinesweeperAI.height ai;
                   MinesweeperAI.width := MinesweeperAI.width ai;
                   MinesweeperAI.moves_made :=
                     MinesweeperAI.moves_made ai ∪ {[c]};
                   MinesweeperAI.mines := MinesweeperAI.mines ai;
                   MinesweeperAI.safes := MinesweeperAI.safes ai;
                   MinesweeperAI.knowledge := MinesweeperAI.knowledge ai |} c)
    in *.
  set (new := Sentence.Sentence
                (list_to_set (MinesweeperAI.find_cell_neighbors ai1 c)) n) in *.
  set (ai3 := MinesweeperAI.set_knowledge ai1
                (MinesweeperAI.knowledge ai1 ++ [new])) in *.
  assert (MinesweeperAI.add_knowledge ai c n
          = MinesweeperAI.infer_new_sentences
              (MinesweeperAI.update_knowledge_base ai3)) as -> by done.
  cbn [MinesweeperAI.infer_new_sentences MinesweeperAI.set_knowledge
       MinesweeperAI.safes MinesweeperAI.mines].
  assert (new ∈ MinesweeperAI.knowledge ai3) as Hnew.
  { cbn [ai3 MinesweeperAI.set_knowledge MinesweeperAI.knowledge].
    apply elem_of_app. right. by apply list_elem_of_singleton. }
  assert (∀ x, x ∈ around → x ∈ MinesweeperAI.find_cell_neighbors ai1 c) as Hin.
  { intros x [[Hm Hb] Hx]%list_elem_of_filter.
    apply elem_of_find_cell_neighbors. split; [by apply elem_of_candidates|].
    apply elem_of_candidates in Hx as Hadj. destruct Hadj as [Hne _].
    unfold MinesweeperAI.in_bounds. cbn [ai1 MinesweeperAI.mark_safe
      MinesweeperAI.height MinesweeperAI.width MinesweeperAI.moves_made].
    rewrite Hh, Hw. split; [done|]. set_solver. }
  assert (length around
          = length (MinesweeperAI.find_cell_neighbors ai1 c)) as Hlen.
  { unfold around, MinesweeperAI.find_cell_neighbors. f_equal.
    apply filter_ext_in. intros x Hx.
    apply elem_of_candidates in Hx as [Hne _].
    unfold MinesweeperAI.in_bounds. cbn [ai1 MinesweeperAI.mark_safe
      MinesweeperAI.height MinesweeperAI.width MinesweeperAI.moves_made].
    rewrite Hh, Hw. set_solver. }
  destruct (update_knowledge_base_complete M ai3 new Hbefore Hnew)
    as [Hsafe Hmine].
  split; intros Hn x Hx.
  - apply Hsafe. unfold Sentence.known_safes.
    rewrite decide_True by done. cbn [new Sentence.cells].
    by apply elem_of_list_to_set, Hin.
  - apply Hmine. unfold Sentence.known_mines, Sentence.len.
    rewrite decide_True.
    + cbn [new Sentence.cells]. by apply elem_of_list_to_set, Hin.
    + cbn [new Sentence.cells Sentence.count].
      rewrite size_list_to_set by apply NoDup_find_cell_neighbors.
      by rewrite <- Hlen.
Qed.

Lemma add_knowledge_extreme_counts_witness :
  (0, 1) ∈ MinesweeperAI.safes
             (MinesweeperAI.add_knowledge (MinesweeperAI.init 1 3) (0, 0) 0)
  ∧ (0, 1) ∈ MinesweeperAI.mines
               (MinesweeperAI.add_knowledge (MinesweeperAI.init 1 3) (0, 0) 1).
Proof.
  split.
  - destruct (add_knowledge_extreme_counts 1 3 {[ (0, 2) ]} [] (0, 0) 0)
      as [H _].
    + constructor.
    + split; vm_compute; congruence.
    + apply H; [reflexivity|]. apply (bool_decide_unpack _). vm_compute. exact I.
  - destruct (add_knowledge_extreme_counts 1 3 {[ (0, 1) ]} [] (0, 0) 1)
      as [_ H].
    + constructor.
    + split; vm_compute; congruence.
    + apply H; [vm_compute; reflexivity|].
      apply (bool_decide_unpack _). vm_compute. exact I.
Defined.

(** X19. A game that the constructor returns is won from the start
    exactly when it was asked for no mine: [won()] compares [mines] with
    the still empty [mines_found]. *)
Theorem won_after_init (h w m : Z) (draws : list (nat * nat)) (g : Minesweeper.t) :
  Minesweeper.init h w m draws = Minesweeper.Constructed g →
  Minesweeper.won g = true ↔ m = 0.
Proof.
  unfold Minesweeper.init. intros Hg.
  pose proof (add_mines_spec h w m draws (∅, Minesweeper.empty_board h w)
                (rectangular_empty_board h w) (marks_empty_board h w)) as H.
  destruct (Minesweeper.add_mines h w m draws
              (∅, Minesweeper.empty_board h w)) as [st'| | |]; try done.
  injection Hg as <-. destruct H as (_ & _ & <-).
  unfold Minesweeper.won. cbn [Minesweeper.mines_found Minesweeper.mines].
  rewrite bool_decide_eq_true. split.
  - intros <-. by rewrite size_empty.
  - intros Hz. symmetry. apply leibniz_equiv, size_empty_inv. lia.
Qed.

Lemma won_after_init_witness :
  Minesweeper.won
    {| Minesweeper.height := 2; Minesweeper.width := 2;
       Minesweeper.mines := ∅;
       Minesweeper.board := [[false; false]; [false; false]];
       Minesweeper.mines_found := ∅ |} = true.
Proof.
  apply (won_after_init 2 2 0 []); reflexivity.
Defined.
